(** * cplot: domain colouring of complex functions

    A shallow embedding of [src/cplot/main.py] (functions [get_srgb1],
    [abs_scaling], [plot], [_get_z_grid]) and the properties its
    specification states about them.

    Numbers.  NumPy computes on IEEE-754 doubles.  A double is modelled
    here as a value of [float64]: a real number, one of the two
    infinities, or NaN.  The special values follow the IEEE rules that
    NumPy applies (inf/inf = NaN, NaN compares false with everything,
    pow(x, 0) = 1, ...); finite values are exact reals, so rounding,
    overflow and the sign of zero are not represented. *)

From Stdlib Require Import Reals Lra Lia List Bool ZArith String Ascii.
Import ListNotations.

Local Open Scope R_scope.

(** ** IEEE-style numbers *)

Inductive float64 : Type :=
| Fin (r : R)
| Inf (neg : bool)
| NaN.

Definition is_nan (a : float64) : bool :=
  match a with NaN => true | _ => false end.

Definition is_finite (a : float64) : Prop :=
  match a with Fin _ => True | _ => False end.

Definition fopp (a : float64) : float64 :=
  match a with
  | Fin x => Fin (- x)
  | Inf s => Inf (negb s)
  | NaN => NaN
  end.

Definition fadd (a b : float64) : float64 :=
  match a, b with
  | NaN, _ | _, NaN => NaN
  | Fin x, Fin y => Fin (x + y)
  | Inf s, Fin _ | Fin _, Inf s => Inf s
  | Inf s, Inf t => if Bool.eqb s t then Inf s else NaN
  end.

Definition fsub (a b : float64) : float64 := fadd a (fopp b).

(** Sign of a finite real as seen by a product or quotient with an
    infinity: [None] for zero. *)
Definition sign_of (x : R) : option bool :=
  if Rlt_dec 0 x then Some false
  else if Rlt_dec x 0 then Some true
  else None.

Definition fmul (a b : float64) : float64 :=
  match a, b with
  | NaN, _ | _, NaN => NaN
  | Fin x, Fin y => Fin (x * y)
  | Inf s, Fin x | Fin x, Inf s =>
      match sign_of x with
      | Some t => Inf (xorb s t)
      | None => NaN
      end
  | Inf s, Inf t => Inf (xorb s t)
  end.

Definition fdiv (a b : float64) : float64 :=
  match a, b with
  | NaN, _ | _, NaN => NaN
  | Fin x, Fin y =>
      if Req_dec_T y 0 then
        match sign_of x with
        | Some t => Inf t
        | None => NaN
        end
      else Fin (x / y)
  | Fin _, Inf _ => Fin 0
  | Inf s, Fin y =>
      match sign_of y with
      | Some t => Inf (xorb s t)
      | None => Inf s
      end
  | Inf _, Inf _ => NaN
  end.

Definition fabs (a : float64) : float64 :=
  match a with
  | Fin x => Fin (Rabs x)
  | Inf _ => Inf false
  | NaN => NaN
  end.

(** Comparisons: false as soon as one side is NaN. *)
Definition flt (a b : float64) : bool :=
  match a, b with
  | NaN, _ | _, NaN => false
  | Fin x, Fin y => if Rlt_dec x y then true else false
  | Fin _, Inf s => negb s
  | Inf s, Fin _ => s
  | Inf s, Inf t => s && negb t
  end.

Definition fgt (a b : float64) : bool := flt b a.

Definition fcos (a : float64) : float64 :=
  match a with Fin x => Fin (cos x) | _ => NaN end.

Definition fsin (a : float64) : float64 :=
  match a with Fin x => Fin (sin x) | _ => NaN end.

(** [is_integer a]: the real [a] is a whole number. *)
Definition is_integer (a : R) : bool :=
  if Req_dec_T (IZR (Int_part a)) a then true else false.

Definition is_odd_integer (a : R) : bool :=
  is_integer a && Z.odd (Int_part a).

(** [x ** a] for a double [x] and a real exponent [a] (C99 [pow]). *)
Definition fpow (x : float64) (a : R) : float64 :=
  if Req_dec_T a 0 then Fin 1
  else
    match x with
    | NaN => NaN
    | Fin r =>
        if Rlt_dec 0 r then Fin (Rpower r a)
        else if Req_dec_T r 0 then
          (if Rlt_dec 0 a then Fin 0 else Inf false)
        else if is_integer a then
          (if Z.odd (Int_part a) then Fin (- Rpower (- r) a)
           else Fin (Rpower (- r) a))
        else NaN
    | Inf false => if Rlt_dec 0 a then Inf false else Fin 0
    | Inf true =>
        if Rlt_dec 0 a then Inf (is_odd_integer a) else Fin 0
    end.

(** [np.mod(x, m)]: the remainder has the sign of the divisor. *)
Definition np_mod (x : float64) (m : R) : float64 :=
  match x with
  | Fin r => if Req_dec_T m 0 then NaN
             else Fin (r - m * IZR (Int_part (r / m)))
  | _ => NaN
  end.

(** [np.arctan2(y, x)]. *)
Definition arctan2 (y x : float64) : float64 :=
  match y, x with
  | NaN, _ | _, NaN => NaN
  | Fin b, Fin a =>
      if Rlt_dec 0 a then Fin (atan (b / a))
      else if Rlt_dec a 0 then
        (if Rle_dec 0 b then Fin (atan (b / a) + PI)
         else Fin (atan (b / a) - PI))
      else if Rlt_dec 0 b then Fin (PI / 2)
      else if Rlt_dec b 0 then Fin (- (PI / 2))
      else Fin 0
  | Fin b, Inf false => Fin 0
  | Fin b, Inf true => if Rle_dec 0 b then Fin PI else Fin (- PI)
  | Inf s, Fin _ => if s then Fin (- (PI / 2)) else Fin (PI / 2)
  | Inf s, Inf false => if s then Fin (- (PI / 4)) else Fin (PI / 4)
  | Inf s, Inf true =>
      if s then Fin (- (3 * PI / 4)) else Fin (3 * PI / 4)
  end.

(** ** Complex samples *)

Record complex : Type := mkC { real : float64; imag : float64 }.

(** [np.abs] of a complex number is [hypot(real, imag)]: an infinite
    part wins over a NaN part. *)
Definition np_abs (z : complex) : float64 :=
  match real z, imag z with
  | Inf _, _ | _, Inf _ => Inf false
  | NaN, _ | _, NaN => NaN
  | Fin x, Fin y => Fin (sqrt (x * x + y * y))
  end.

(** [np.angle(z)] is [arctan2(z.imag, z.real)]. *)
Definition np_angle (z : complex) : float64 :=
  arctan2 (imag z) (real z).

(** ** The magnitude scaler: [abs_scaling] (main.py, lines 42-44) *)

Definition abs_scaling (alpha : R) (r : float64) : float64 :=
  fdiv (fpow r alpha) (fadd (fpow r alpha) (Fin 1)).

(** The scaling law in the words of the specification,
    [r^alpha / (r^alpha + 1)] on the reals, with [0^alpha = 0]. *)
Definition rpow (r alpha : R) : R :=
  if Req_dec_T r 0 then (if Req_dec_T alpha 0 then 1 else 0)
  else Rpower r alpha.

Definition scale (r alpha : R) : R :=
  rpow r alpha / (rpow r alpha + 1).

(** ** Arrays

    An n-dimensional array is its shape and its elements in row-major
    order.  All the array code of [get_srgb1] is element-wise. *)

Record ndarray (T : Type) : Type := mkArr { shape : list nat; data : list T }.
Arguments mkArr {T} _ _.
Arguments shape {T} _.
Arguments data {T} _.

Definition amap {A B : Type} (f : A -> B) (a : ndarray A) : ndarray B :=
  mkArr (shape a) (map f (data a)).

Definition amap2 {A B C : Type} (f : A -> B -> C)
    (a : ndarray A) (b : ndarray B) : ndarray C :=
  mkArr (shape a) (map (fun p => f (fst p) (snd p)) (combine (data a) (data b))).

Definition vec3 : Type := (float64 * float64 * float64)%type.

(** [np.array([c0, c1, c2])] of three arrays of one shape [s] has shape
    [3 :: s]; it is kept as the array of shape [s] of its columns
    [(c0, c1, c2)].  [np.moveaxis(a, 0, -1)] then yields shape [s ++ [3]],
    each column laid out contiguously. *)
Definition stack3 (c0 c1 c2 : ndarray float64) : ndarray vec3 :=
  amap2 (fun x yz => (x, fst yz, snd yz)) c0 (amap2 pair c1 c2).

Definition moveaxis_0_last (a : ndarray vec3) : ndarray float64 :=
  mkArr (shape a ++ [3%nat])
        (flat_map (fun v => [fst (fst v); snd (fst v); snd v]) (data a)).

Definition vmap (g : float64 -> float64) (v : vec3) : vec3 :=
  (g (fst (fst v)), g (snd (fst v)), g (snd v)).

(** ** Exceptions *)

Inductive exn : Type :=
| AssertionError (msg : string)
| ZeroDivisionError
| ValueError.

Inductive result (A : Type) : Type :=
| Ok (a : A)
| Raise (e : exn).
Arguments Ok {A} _.
Arguments Raise {A} _.

Definition bind {A B : Type} (m : result A) (k : A -> result B) : result B :=
  match m with
  | Ok a => k a
  | Raise e => Raise e
  end.

Notation "x <- m ;; k" := (bind m (fun x => k))
  (at level 61, m at next level, right associativity).

Definition assert (b : bool) (msg : string) : result unit :=
  if b then Ok tt else Raise (AssertionError msg).

(** The two failures of [get_srgb1], under the names the specification
    gives them.  Python raises [AssertionError] for both: without a
    message at line 10, with the message of line 164 otherwise. *)
Definition InvalidParameter : exn := AssertionError "".

Definition UnsupportedColorSpace (colorspace : string) : exn :=
  AssertionError
    ("Illegal colorspace " ++ colorspace ++ ". Pick one of CAM16, CIELAB, HSL.").

(** ** Strings: [str.upper] on ASCII text *)

Definition upper_ascii (c : ascii) : ascii :=
  let n := nat_of_ascii c in
  if (97 <=? n)%nat && (n <=? 122)%nat then ascii_of_nat (n - 32) else c.

Fixpoint upper (s : string) : string :=
  match s with
  | EmptyString => EmptyString
  | String c t => String (upper_ascii c) (upper t)
  end.

(** ** The collaborators from [colorio] and [matplotlib]

    The colour-space conversions act column by column on a [(3, ...)]
    array; each is a function on one column. *)

Class Colorio : Type := {
  CAM16UCS_to_xyz100 : R -> R -> R -> vec3 -> vec3;
  CIELAB_to_xyz100 : vec3 -> vec3;
  OKLAB_to_xyz100 : vec3 -> vec3;
  SrgbLinear_from_xyz100 : vec3 -> vec3;
  SrgbLinear_to_rgb1 : vec3 -> vec3;
  HSL_to_rgb1 : vec3 -> vec3
}.

(** A contour segment is an [(N, 2)] array of points. *)
Definition point : Type := (float64 * float64)%type.
Definition segment : Type := list point.

(** [plt.contour(X, Y, field, levels)] draws and returns a contour set;
    [contour_allsegs] is its [allsegs]: per level, the list of segments
    the isoline extraction found. *)
Class Pyplot : Type := {
  contour_allsegs :
    ndarray float64 -> ndarray float64 -> ndarray float64 ->
    list float64 -> list (list segment)
}.

(** ** [get_srgb1] (main.py, lines 9-179) *)

(** Lines 97-98 (and 125-126, 159-160): [v[v > 1] = 1.0; v[v < 0] = 0.0]. *)
Definition clip_hi (v : float64) : float64 :=
  if fgt v (Fin 1) then Fin 1 else v.

Definition clip_lo (v : float64) : float64 :=
  if flt v (Fin 0) then Fin 0 else v.

Definition clip01 (v : float64) : float64 := clip_lo (clip_hi v).

(** Lines 77-91: the CAM16 points. *)
Definition cam_pts (angle absval_scaled : ndarray float64) : ndarray vec3 :=
  let r0 := 25.0 in
  let offset := 0.916708 * PI in
  let rd :=
    amap (fun s => fsub (Fin r0) (fmul (Fin (r0 * 2)) (fabs (fsub s (Fin 0.5)))))
         absval_scaled in
  stack3 (amap (fun s => fmul (Fin 100) s) absval_scaled)
         (amap2 fmul rd (amap (fun a => fcos (fadd a (Fin offset))) angle))
         (amap2 fmul rd (amap (fun a => fsin (fadd a (Fin offset))) angle)).

(** Lines 106-120: the CIELAB points. *)
Definition cielab_pts (angle absval_scaled : ndarray float64) : ndarray vec3 :=
  let r0 := 45.0 in
  let offset := 0.8936868 * PI in
  let rd :=
    amap (fun s => fsub (Fin r0) (fmul (Fin (r0 * 2)) (fabs (fsub s (Fin 0.5)))))
         absval_scaled in
  stack3 (amap (fun s => fmul (Fin 100) s) absval_scaled)
         (amap2 fmul rd (amap (fun a => fcos (fadd a (Fin offset))) angle))
         (amap2 fmul rd (amap (fun a => fsin (fadd a (Fin offset))) angle)).

(** Lines 136-154: the OKLAB points. *)
Definition oklab_pts (angle absval_scaled : ndarray float64) : ndarray vec3 :=
  let max_lightness := 4.64158795 in
  let r0 := 0.50 in
  let offset := 0.8936868 * PI in
  let rd :=
    amap (fun s => fsub (Fin r0) (fmul (Fin (r0 * 2)) (fabs (fsub s (Fin 0.5)))))
         absval_scaled in
  stack3 (amap (fun s => fmul (Fin max_lightness) s) absval_scaled)
         (amap2 fmul rd (amap (fun a => fcos (fadd a (Fin offset))) angle))
         (amap2 fmul rd (amap (fun a => fsin (fadd a (Fin offset))) angle)).

(** Lines 167-174: the HSL points. *)
Definition np_ones (a : ndarray float64) : ndarray float64 :=
  amap (fun _ => Fin 1) a.

Definition hsl_vals (angle absval_scaled : ndarray float64) : ndarray vec3 :=
  let offset := 120 in
  stack3 (amap (fun a =>
                  np_mod (fadd (fmul (fdiv a (Fin (2 * PI))) (Fin 360)) (Fin offset))
                         360) angle)
         (np_ones angle)
         absval_scaled.

Section GetSrgb1.
Context {cio : Colorio}.

(** The four branches, each up to (not including) [np.moveaxis]. *)
Definition srgb_vals_cam16 (angle absval_scaled : ndarray float64) :=
  let cam := CAM16UCS_to_xyz100 0.69 20 (64 / PI / 5) in
  let srgb_vals :=
    amap (fun p => SrgbLinear_to_rgb1 (SrgbLinear_from_xyz100 (cam p)))
         (cam_pts angle absval_scaled) in
  let srgb_vals := amap (vmap (fun v => fmul v (Fin 1.1))) srgb_vals in
  let srgb_vals := amap (vmap clip_hi) srgb_vals in
  amap (vmap clip_lo) srgb_vals.

Definition srgb_vals_cielab (angle absval_scaled : ndarray float64) :=
  let srgb_vals :=
    amap (fun p => SrgbLinear_to_rgb1 (SrgbLinear_from_xyz100 (CIELAB_to_xyz100 p)))
         (cielab_pts angle absval_scaled) in
  let srgb_vals := amap (vmap clip_hi) srgb_vals in
  amap (vmap clip_lo) srgb_vals.

Definition srgb_vals_oklab (angle absval_scaled : ndarray float64) :=
  let srgb_vals :=
    amap (fun p => SrgbLinear_to_rgb1 (SrgbLinear_from_xyz100 (OKLAB_to_xyz100 p)))
         (oklab_pts angle absval_scaled) in
  let srgb_vals := amap (vmap clip_hi) srgb_vals in
  amap (vmap clip_lo) srgb_vals.

Definition srgb_vals_hsl (angle absval_scaled : ndarray float64) :=
  let srgb_vals := amap HSL_to_rgb1 (hsl_vals angle absval_scaled) in
  amap (vmap clip_lo) srgb_vals.

Definition get_srgb1 (z : ndarray complex) (alpha : R) (colorspace : string)
    : result (ndarray float64) :=
  _ <- assert (if Rle_dec 0 alpha then true else false) "" ;;
  let angle := amap (fun c => arctan2 (imag c) (real c)) z in
  let absval_scaled := amap (fun c => abs_scaling alpha (np_abs c)) z in
  if (upper colorspace =? "CAM16")%string then
    Ok (moveaxis_0_last (srgb_vals_cam16 angle absval_scaled))
  else if (upper colorspace =? "CIELAB")%string then
    Ok (moveaxis_0_last (srgb_vals_cielab angle absval_scaled))
  else if (upper colorspace =? "OKLAB")%string then
    Ok (moveaxis_0_last (srgb_vals_oklab angle absval_scaled))
  else
    _ <- assert (upper colorspace =? "HSL")%string
           ("Illegal colorspace " ++ colorspace
              ++ ". Pick one of CAM16, CIELAB, HSL.") ;;
    Ok (moveaxis_0_last (srgb_vals_hsl angle absval_scaled)).

End GetSrgb1.

(** ** [_get_z_grid] (main.py, lines 264-281) *)

(** [np.linspace(start, stop, num)]. *)
Definition np_linspace (start stop : R) (num : Z) : result (list R) :=
  if (num <? 0)%Z then Raise ValueError
  else
    let step := (stop - start) / IZR (num - 1) in
    Ok (map (fun i => if (num =? 1)%Z then start else start + INR i * step)
            (seq 0 (Z.to_nat num))).

(** Python's [a / n] for a float [a] and an int [n]. *)
Definition py_div (a : R) (n : Z) : result R :=
  if (n =? 0)%Z then Raise ZeroDivisionError else Ok (a / IZR n).

Definition c_of_real (x : float64) : complex := mkC x (Fin 0).

Definition cadd (a b : complex) : complex :=
  mkC (fadd (real a) (real b)) (fadd (imag a) (imag b)).

Definition cmul (a b : complex) : complex :=
  mkC (fsub (fmul (real a) (real b)) (fmul (imag a) (imag b)))
      (fadd (fmul (real a) (imag b)) (fmul (imag a) (real b))).

(** The imaginary unit [1j]. *)
Definition Cj : complex := mkC (Fin 0) (Fin 1).

(** [x + 1j * y] for real [x] and [y]. *)
Definition x_plus_1j_y (x y : float64) : complex :=
  cadd (c_of_real x) (cmul Cj (c_of_real y)).

Definition _get_z_grid (xminmax yminmax : R * R) (n : Z * Z)
    : result (ndarray complex) :=
  let '(xmin, xmax) := xminmax in
  let '(ymin, ymax) := yminmax in
  let '(nx, ny) := n in
  hx <- py_div (xmax - xmin) nx ;;
  x <- np_linspace (xmin + hx / 2) (xmax - hx / 2) nx ;;
  hy <- py_div (ymax - ymin) ny ;;
  y <- np_linspace (ymin + hy / 2) (ymax - hy / 2) ny ;;
  (* X = np.meshgrid(x, y): both of shape (ny, nx) *)
  Ok (mkArr [List.length y; List.length x]
        (flat_map (fun yj => map (fun xi => x_plus_1j_y (Fin xi) (Fin yj)) x) y)).

(** ** [plot] (main.py, lines 182-246) *)

(** The argument [n]: an [int], a [tuple], or anything else. *)
Inductive n_arg : Type :=
| n_int (k : Z)
| n_tuple (t : list Z)
| n_other.

(** The calls made on [matplotlib.pyplot], in order.  A [contour] call
    carries the segments of the contour set it returned, as they are
    when [plot] returns. *)
Inductive plt_call : Type :=
| imshow (X : ndarray float64) (extent : float64 * float64 * float64 * float64)
| contour (X Y Z : ndarray float64) (levels : list float64) (colors : string)
          (allsegs : list (list segment))
| plt_show
| plt_savefig (filename : string).

Definition fmin (a b : float64) : float64 :=
  if is_nan a || is_nan b then NaN else if flt b a then b else a.

Definition fmax (a b : float64) : float64 :=
  if is_nan a || is_nan b then NaN else if flt a b then b else a.

(** [np.min] and [np.max] of a non-empty array. *)
Definition np_min (a : ndarray float64) : float64 :=
  match data a with
  | [] => NaN
  | x :: t => fold_left fmin t x
  end.

Definition np_max (a : ndarray float64) : float64 :=
  match data a with
  | [] => NaN
  | x :: t => fold_left fmax t x
  end.

Definition nan_point : point := (NaN, NaN).

Section Plot.
Context {cio : Colorio} {plt : Pyplot}.

(** The function to plot, applied element by element. *)
Variable f : complex -> complex.

(** Lines 240-245, for one point [(x, y)] of a segment. *)
Definition is_false (level : float64) (p : point) : bool :=
  let z := x_plus_1j_y (fst p) (snd p) in
  let angle := np_angle (f z) in
  flt (fabs (fsub angle (Fin PI))) (fabs (fsub angle level))
  || flt (fabs (fadd angle (Fin PI))) (fabs (fsub angle level)).

(** Line 246: [segment[is_false] = np.nan]. *)
Definition mask_segment (level : float64) (s : segment) : segment :=
  map (fun p => if is_false level p then nan_point else p) s.

(** Lines 238-246: [for level, allseg in zip(levels, c.allsegs)],
    mutating the segments in place; entries beyond the shorter of the
    two lists are not visited. *)
Fixpoint mask_allsegs (levels : list float64) (allsegs : list (list segment))
    : list (list segment) :=
  match levels, allsegs with
  | level :: levels', allseg :: allsegs' =>
      map (mask_segment level) allseg :: mask_allsegs levels' allsegs'
  | _, _ => allsegs
  end.

Definition plot (xminmax yminmax : R * R) (n : n_arg)
    (alpha : R) (colorspace : string) (contour_abs contour_arg : bool)
    : result (list plt_call) :=
  let '(xmin, xmax) := xminmax in
  let '(ymin, ymax) := yminmax in
  _ <- assert (if Rlt_dec xmin xmax then true else false) "" ;;
  _ <- assert (if Rlt_dec ymin ymax then true else false) "" ;;
  nxy <- match n with
         | n_tuple t =>
             _ <- assert (List.length t =? 2)%nat "" ;;
             Ok (nth 0 t 0%Z, nth 1 t 0%Z)
         | n_int k => Ok (k, k)
         | n_other => Raise (AssertionError "")
         end ;;
  Z <- _get_z_grid xminmax yminmax nxy ;;
  let fZ := amap f Z in
  img <- get_srgb1 fZ alpha colorspace ;;
  let Zreal := amap real Z in
  let Zimag := amap imag Z in
  let calls :=
    [imshow img (np_min Zreal, np_max Zreal, np_min Zimag, np_max Zimag)] in
  let gray := "#a0a0a050"%string in
  let calls :=
    if contour_abs then
      let levels := [Fin 0.1; Fin 100.0] in
      let field := amap np_abs fZ in
      calls ++ [contour Zreal Zimag field levels gray
                        (contour_allsegs Zreal Zimag field levels)]
    else calls in
  let calls :=
    if contour_arg then
      let levels := [Fin (-0.5 * PI); Fin 0.0; Fin (0.5 * PI)] in
      let field := amap np_angle fZ in
      let c_allsegs := contour_allsegs Zreal Zimag field levels in
      calls ++ [contour Zreal Zimag field levels gray
                        (mask_allsegs levels c_allsegs)]
    else calls in
  Ok calls.

(** Lines 249-256. *)
Definition show (xminmax yminmax : R * R) (n : n_arg)
    (alpha : R) (colorspace : string) (contour_abs contour_arg : bool)
    : result (list plt_call) :=
  calls <- plot xminmax yminmax n alpha colorspace contour_abs contour_arg ;;
  Ok (calls ++ [plt_show]).

Definition savefig (filename : string) (xminmax yminmax : R * R) (n : n_arg)
    (alpha : R) (colorspace : string) (contour_abs contour_arg : bool)
    : result (list plt_call) :=
  calls <- plot xminmax yminmax n alpha colorspace contour_abs contour_arg ;;
  Ok (calls ++ [plt_savefig filename]).

End Plot.

(** ** The specification's vocabulary *)

(** The four colour spaces and the table of section 4.2. *)
Inductive space : Type := CAM16 | CIELAB | OKLAB | HSL.

Definition lightnessScale (sp : space) : R :=
  match sp with
  | CAM16 | CIELAB => 100
  | OKLAB => 4.64158795
  | HSL => 1
  end.

Definition r0_of (sp : space) : R :=
  match sp with
  | CAM16 => 25.0
  | CIELAB => 45.0
  | OKLAB => 0.50
  | HSL => 0
  end.

Definition hue_offset (sp : space) : R :=
  match sp with
  | CAM16 => 0.916708 * PI
  | CIELAB | OKLAB => 0.8936868 * PI
  | HSL => 0
  end.

(** Section 4.2, "for each element": lightness, chroma radius, axes. *)
Definition chromaRadius (sp : space) (scaledMagnitude : float64) : float64 :=
  fsub (Fin (r0_of sp))
       (fmul (Fin (r0_of sp))
             (fmul (Fin 2) (fabs (fsub scaledMagnitude (Fin 0.5))))).

Definition ColorSpacePoint (sp : space) (scaledMagnitude angle : float64) : vec3 :=
  (fmul (Fin (lightnessScale sp)) scaledMagnitude,
   fmul (chromaRadius sp scaledMagnitude) (fcos (fadd angle (Fin (hue_offset sp)))),
   fmul (chromaRadius sp scaledMagnitude) (fsin (fadd angle (Fin (hue_offset sp))))).

(** The selector names of section 6, matched without regard to case. *)
Definition space_name (sp : space) : string :=
  match sp with
  | CAM16 => "CAM16"
  | CIELAB => "CIELAB"
  | OKLAB => "OKLAB"
  | HSL => "HSL"
  end.

Definition caseless_eq (a b : string) : Prop := upper a = upper b.

Definition selects (colorspace : string) (sp : space) : Prop :=
  caseless_eq colorspace (space_name sp).

(** Section 4.3: from a colour-space point to display colour, by the
    conversions of the selected space. *)
Definition decode {cio : Colorio} (sp : space) (p : vec3) : vec3 :=
  match sp with
  | CAM16 =>
      SrgbLinear_to_rgb1
        (SrgbLinear_from_xyz100 (CAM16UCS_to_xyz100 0.69 20 (64 / PI / 5) p))
  | CIELAB => SrgbLinear_to_rgb1 (SrgbLinear_from_xyz100 (CIELAB_to_xyz100 p))
  | OKLAB => SrgbLinear_to_rgb1 (SrgbLinear_from_xyz100 (OKLAB_to_xyz100 p))
  | HSL => HSL_to_rgb1 p
  end.

(** Section 4.2, HSL branch. *)
Definition hue (angle : float64) : float64 :=
  np_mod (fadd (fmul (fdiv angle (Fin (2 * PI))) (Fin 360)) (Fin 120)) 360.

Definition HslPoint (scaledMagnitude angle : float64) : vec3 :=
  (hue angle, Fin 1, scaledMagnitude).

(** A channel value in the closed interval [0, 1]. *)
Definition in01 (v : float64) : Prop :=
  exists r, v = Fin r /\ 0 <= r <= 1.

Definition finite_sample (c : complex) : Prop :=
  is_finite (real c) /\ is_finite (imag c).

Definition vec3_all (P : float64 -> Prop) (v : vec3) : Prop :=
  P (fst (fst v)) /\ P (snd (fst v)) /\ P (snd v).

(** The per-sample quantities of lines 54-55. *)
Definition angle_of (c : complex) : float64 := arctan2 (imag c) (real c).

Definition scaledMagnitude (alpha : R) (c : complex) : float64 :=
  abs_scaling alpha (np_abs c).

(** What one sample becomes, branch by branch: the point handed to the
    conversion, and the treatment of the converted channels
    (lines 94-98, 125-126, 159-160, 177). *)
Definition point_of (sp : space) (scaledMagnitude angle : float64) : vec3 :=
  match sp with
  | HSL => HslPoint scaledMagnitude angle
  | _ => ColorSpacePoint sp scaledMagnitude angle
  end.

Definition post (sp : space) (v : float64) : float64 :=
  match sp with
  | CAM16 => clip_lo (clip_hi (fmul v (Fin 1.1)))
  | CIELAB | OKLAB => clip_lo (clip_hi v)
  | HSL => clip_lo v
  end.

Definition pixel {cio : Colorio} (sp : space) (alpha : R) (c : complex) : vec3 :=
  vmap (post sp) (decode sp (point_of sp (scaledMagnitude alpha c) (angle_of c))).

(** A stand-in for [colorio] in worked examples: every conversion
    returns the column [v]. *)
Definition flat_colorio (v : vec3) : Colorio :=
  {| CAM16UCS_to_xyz100 := fun _ _ _ _ => v;
     CIELAB_to_xyz100 := fun _ => v;
     OKLAB_to_xyz100 := fun _ => v;
     SrgbLinear_from_xyz100 := fun _ => v;
     SrgbLinear_to_rgb1 := fun _ => v;
     HSL_to_rgb1 := fun _ => v |}.

Definition gray_colorio : Colorio := flat_colorio (Fin 0.5, Fin 0.5, Fin 0.5).

(** Section 4.3 as worded: the decoded values of a perceptual space
    are multiplied by 1.1 and then clipped. *)
Definition post_multiplied (v : float64) : float64 :=
  clip01 (fmul v (Fin 1.1)).

Definition post_multiplied_pixel {cio : Colorio} (sp : space) (alpha : R)
    (c : complex) : vec3 :=
  vmap post_multiplied
       (decode sp (ColorSpacePoint sp (scaledMagnitude alpha c) (angle_of c))).

(** The levels of the [contour] calls of a trace, in call order. *)
Definition contour_levels (calls : list plt_call) : list (list float64) :=
  flat_map (fun c => match c with
                     | contour _ _ _ levels _ _ => [levels]
                     | _ => []
                     end) calls.

(** A stand-in for the isoline extraction in worked examples: it
    returns the given segments whatever the field. *)
Definition fixed_pyplot (allsegs : list (list segment)) : Pyplot :=
  {| contour_allsegs := fun _ _ _ _ => allsegs |}.

(** A column of a perceptual point array that lies on the bicone of
    lightness range [0, L] and largest chroma radius [r0]: its chroma
    radius is fixed by its lightness. *)
Definition on_bicone (L r0 : R) (col : vec3) : Prop :=
  exists l a1 a2,
    col = (Fin l, Fin a1, Fin a2) /\
    0 <= l <= L /\
    let rd := r0 - r0 * 2 * Rabs (l / L - 0.5) in
    a1 * a1 + a2 * a2 = rd * rd /\ 0 <= rd <= r0.

(** The hue, in degrees, of a phase [a] of (-pi, pi]: the phase in
    degrees turned by 120, brought back into [0, 360). *)
Definition hue_degrees (a : R) : R :=
  if Rle_dec (- (2 * PI / 3)) a then a * 180 / PI + 120
  else a * 180 / PI + 480.

(** The centre of cell [i] when [lo, hi] is cut into [n] equal cells. *)
Definition cell_centre (lo hi : R) (n : Z) (i : nat) : R :=
  lo + (INR i + 1 / 2) * ((hi - lo) / IZR n).

(** The counts (nx, ny) that lines 197-203 of [plot] read off [n];
    [None] where one of the assertions of those lines fails. *)
Definition counts (n : n_arg) : option (Z * Z) :=
  match n with
  | n_int k => Some (k, k)
  | n_tuple [a; b] => Some (a, b)
  | _ => None
  end.

(** ** [tripcolor] (main.py, lines 291-298) *)

(** [z.shape[0]] of an array without axes raises IndexError. *)
Inductive tripcolor_exn : Type :=
| from_get_srgb1 (e : exn)
| IndexError.

(** The one call [tripcolor] makes: [plt.tripcolor(triang, z2,
    shading="gouraud", cmap=cmap)], the colour map being built by
    [LinearSegmentedColormap.from_list("mymap", rgb, N=n)]. *)
Record tripcolor_call (T : Type) : Type := mk_tripcolor_call {
  tc_triang : T;
  tc_z2 : list nat;
  cmap_colors : ndarray float64;
  cmap_N : nat
}.
Arguments mk_tripcolor_call {T} _ _ _ _.
Arguments tc_triang {T} _.
Arguments tc_z2 {T} _.
Arguments cmap_colors {T} _.
Arguments cmap_N {T} _.

Definition tripcolor {cio : Colorio} {T : Type} (triang : T)
    (z : ndarray complex) (alpha : R) : tripcolor_call T + tripcolor_exn :=
  match get_srgb1 z alpha "CAM16" with
  | Raise e => inr (from_get_srgb1 e)
  | Ok rgb =>
      match shape z with
      | [] => inr IndexError
      | n :: _ =>
          let z2 := seq 0 n in
          inl (mk_tripcolor_call triang z2 rgb n)
      end
  end.

(** * Properties *)

(** *** Basic facts about the scaler *)

Lemma Rpower_pos (x y : R) : 0 < Rpower x y.
Proof. unfold Rpower. apply exp_pos. Qed.

Lemma rpow_nonneg (r alpha : R) : 0 <= rpow r alpha.
Proof.
  unfold rpow.
  destruct (Req_dec_T r 0); [destruct (Req_dec_T alpha 0); lra|].
  left. apply Rpower_pos.
Qed.

Lemma fpow_pos (r alpha : R) :
  0 < r -> fpow (Fin r) alpha = Fin (rpow r alpha).
Proof.
  intros Hr. unfold fpow, rpow.
  destruct (Req_dec_T alpha 0) as [->|Ha].
  - destruct (Req_dec_T r 0); [lra|]. now rewrite Rpower_O.
  - destruct (Rlt_dec 0 r); [|lra].
    destruct (Req_dec_T r 0); [lra|reflexivity].
Qed.

Lemma fpow_zero (alpha : R) :
  0 < alpha -> fpow (Fin 0) alpha = Fin 0.
Proof.
  intros Ha. unfold fpow.
  destruct (Req_dec_T alpha 0); [lra|].
  destruct (Rlt_dec 0 0); [lra|].
  destruct (Req_dec_T 0 0); [|lra].
  destruct (Rlt_dec 0 alpha); [reflexivity|lra].
Qed.

Lemma fpow_nonneg (r alpha : R) :
  0 <= r -> 0 <= alpha -> fpow (Fin r) alpha = Fin (rpow r alpha).
Proof.
  intros Hr Ha.
  destruct (Req_dec_T r 0) as [->|Hr0].
  - unfold rpow. destruct (Req_dec_T 0 0); [|lra].
    destruct (Req_dec_T alpha 0) as [->|Ha0].
    + unfold fpow. destruct (Req_dec_T 0 0); [reflexivity|lra].
    + apply fpow_zero. lra.
  - apply fpow_pos. lra.
Qed.

Lemma abs_scaling_fin (r alpha : R) :
  0 <= r -> 0 <= alpha ->
  abs_scaling alpha (Fin r) = Fin (scale r alpha).
Proof.
  intros Hr Ha. unfold abs_scaling, scale.
  rewrite (fpow_nonneg _ _ Hr Ha). cbn.
  pose proof (rpow_nonneg r alpha).
  destruct (Req_dec_T (rpow r alpha + 1) 0); [lra|reflexivity].
Qed.

Lemma scale_range (r alpha : R) : 0 <= scale r alpha <= 1.
Proof.
  unfold scale. pose proof (rpow_nonneg r alpha) as H.
  set (p := rpow r alpha) in *.
  assert (Hp : 0 < p + 1) by lra.
  split.
  - apply Rmult_le_pos; [lra|]. left. now apply Rinv_0_lt_compat.
  - apply Rmult_le_reg_r with (p + 1); [lra|].
    unfold Rdiv. rewrite Rmult_assoc, Rinv_l; lra.
Qed.

Lemma rpow_inv (r alpha : R) :
  0 < r -> rpow (1 / r) alpha = / rpow r alpha.
Proof.
  intros Hr. unfold rpow.
  assert (Hi : 0 < 1 / r).
  { unfold Rdiv. rewrite Rmult_1_l. now apply Rinv_0_lt_compat. }
  destruct (Req_dec_T (1 / r) 0); [lra|].
  destruct (Req_dec_T r 0); [lra|].
  unfold Rpower, Rdiv. rewrite Rmult_1_l, ln_Rinv by assumption.
  replace (alpha * - ln r) with (- (alpha * ln r)) by ring.
  apply exp_Ropp.
Qed.

Lemma scale_inversion (r alpha : R) :
  0 < r -> scale (1 / r) alpha = 1 - scale r alpha.
Proof.
  intros Hr. unfold scale. rewrite rpow_inv by assumption.
  assert (Hp : 0 < rpow r alpha).
  { unfold rpow. destruct (Req_dec_T r 0); [lra|apply Rpower_pos]. }
  field. split; lra.
Qed.

Lemma abs_scaling_pos (r alpha : R) :
  0 < r ->
  abs_scaling alpha (Fin r) = Fin (Rpower r alpha / (Rpower r alpha + 1)).
Proof.
  intros Hr. unfold abs_scaling. rewrite fpow_pos by assumption.
  unfold rpow. destruct (Req_dec_T r 0); [lra|]. cbn.
  pose proof (Rpower_pos r alpha).
  destruct (Req_dec_T (Rpower r alpha + 1) 0); [lra|reflexivity].
Qed.

Lemma fdiv_one_fin (r : R) : 0 < r -> fdiv (Fin 1) (Fin r) = Fin (1 / r).
Proof. intros Hr. cbn. destruct (Req_dec_T r 0); [lra|reflexivity]. Qed.

Lemma abs_scaling_inf (alpha : R) :
  0 < alpha -> abs_scaling alpha (Inf false) = NaN.
Proof.
  intros Ha. unfold abs_scaling, fpow.
  destruct (Req_dec_T alpha 0); [lra|].
  destruct (Rlt_dec 0 alpha); [reflexivity|lra].
Qed.

Lemma abs_scaling_nan (alpha : R) :
  alpha <> 0 -> abs_scaling alpha NaN = NaN.
Proof.
  intros Ha. unfold abs_scaling, fpow.
  destruct (Req_dec_T alpha 0); [contradiction|reflexivity].
Qed.

Lemma abs_scaling_alpha0 (r : float64) : abs_scaling 0 r = Fin 0.5.
Proof.
  unfold abs_scaling, fpow. destruct (Req_dec_T 0 0); [|lra]. cbn.
  destruct (Req_dec_T (1 + 1) 0); [lra|]. f_equal. lra.
Qed.

(** The scaler tends to 1 as the magnitude grows. *)
Lemma scale_limit (alpha eps : R) :
  0 < alpha -> 0 < eps ->
  exists M, forall r, M < r -> 1 - eps < scale r alpha <= 1.
Proof.
  intros Ha He.
  exists (Rmax 1 (Rpower (1 / eps) (/ alpha))). intros r Hr.
  split; [|apply scale_range].
  assert (H1 : 1 < r) by (pose proof (Rmax_l 1 (Rpower (1 / eps) (/ alpha))); lra).
  assert (H2 : Rpower (1 / eps) (/ alpha) < r)
    by (pose proof (Rmax_r 1 (Rpower (1 / eps) (/ alpha))); lra).
  assert (Hp : 1 / eps < Rpower r alpha).
  { assert (Hie : 0 < 1 / eps).
    { unfold Rdiv. rewrite Rmult_1_l. now apply Rinv_0_lt_compat. }
    replace (1 / eps) with (Rpower (Rpower (1 / eps) (/ alpha)) alpha).
    - apply Rlt_Rpower_l; [assumption|]. split; [apply Rpower_pos|assumption].
    - rewrite Rpower_mult, Rinv_l by lra. now apply Rpower_1. }
  unfold scale, rpow. destruct (Req_dec_T r 0); [lra|].
  set (p := Rpower r alpha) in *.
  assert (Hpe : 1 < eps * p).
  { apply Rmult_lt_reg_l with (/ eps); [now apply Rinv_0_lt_compat|].
    rewrite <- Rmult_assoc, Rinv_l, Rmult_1_l by lra.
    unfold Rdiv in Hp. lra. }
  assert (Hp0 : 0 < p) by apply Rpower_pos.
  apply Rmult_lt_reg_r with (p + 1); [lra|].
  unfold Rdiv. rewrite Rmult_assoc, Rinv_l by lra. nra.
Qed.






(** *** Element-wise array code, fused *)

Lemma amap_amap {A B C : Type} (f : A -> B) (g : B -> C) (a : ndarray A) :
  amap g (amap f a) = amap (fun x => g (f x)) a.
Proof. unfold amap. cbn. now rewrite map_map. Qed.

Lemma amap_ext {A B : Type} (f g : A -> B) (a : ndarray A) :
  (forall x, f x = g x) -> amap f a = amap g a.
Proof. intros H. unfold amap. f_equal. apply map_ext. exact H. Qed.

Lemma combine_map_map {A B C : Type} (f : A -> B) (g : A -> C) (l : list A) :
  combine (map f l) (map g l) = map (fun x => (f x, g x)) l.
Proof. induction l as [|x l IH]; cbn; [reflexivity|now rewrite IH]. Qed.

Lemma amap2_amap {A B C D : Type} (h : B -> C -> D)
    (f : A -> B) (g : A -> C) (a : ndarray A) :
  amap2 h (amap f a) (amap g a) = amap (fun x => h (f x) (g x)) a.
Proof.
  unfold amap2, amap. cbn. f_equal.
  rewrite combine_map_map, map_map. reflexivity.
Qed.

Lemma stack3_amap {A : Type} (f g h : A -> float64) (a : ndarray A) :
  stack3 (amap f a) (amap g a) (amap h a) = amap (fun x => (f x, g x, h x)) a.
Proof. unfold stack3. now rewrite !amap2_amap. Qed.

Ltac fuse := rewrite ?amap_amap, ?amap2_amap, ?stack3_amap.

Lemma sign_of_pos (x : R) : 0 < x -> sign_of x = Some false.
Proof. intros H. unfold sign_of. destruct (Rlt_dec 0 x); [reflexivity|lra]. Qed.

(** [r0 * 2] is folded into one Python float before it meets the array. *)
Lemma fmul_scalar_assoc (r0 : R) (x : float64) :
  0 < r0 -> fmul (Fin (r0 * 2)) x = fmul (Fin r0) (fmul (Fin 2) x).
Proof.
  intros H. destruct x as [y|s|]; cbn; [f_equal; ring| |reflexivity].
  rewrite (sign_of_pos (r0 * 2)), (sign_of_pos 2) by lra. cbn.
  rewrite (sign_of_pos r0) by lra. now destruct s.
Qed.

Lemma bicone_column (sp : space) (lightness r0 offset : R) (s a : float64) :
  0 < r0 -> lightnessScale sp = lightness -> r0_of sp = r0 ->
  hue_offset sp = offset ->
  (fmul (Fin lightness) s,
   fmul (fsub (Fin r0) (fmul (Fin (r0 * 2)) (fabs (fsub s (Fin 0.5)))))
        (fcos (fadd a (Fin offset))),
   fmul (fsub (Fin r0) (fmul (Fin (r0 * 2)) (fabs (fsub s (Fin 0.5)))))
        (fsin (fadd a (Fin offset))))
  = ColorSpacePoint sp s a.
Proof.
  intros H0 HL Hr Ho. unfold ColorSpacePoint, chromaRadius.
  rewrite HL, Hr, Ho, fmul_scalar_assoc by assumption. reflexivity.
Qed.

Lemma cam_pts_columns (z : ndarray complex) (alpha : R) :
  cam_pts (amap angle_of z) (amap (scaledMagnitude alpha) z)
  = amap (fun c => ColorSpacePoint CAM16 (scaledMagnitude alpha c) (angle_of c)) z.
Proof.
  unfold cam_pts. cbv zeta. fuse. apply amap_ext. intros c.
  apply bicone_column; cbn; lra.
Qed.

Lemma cielab_pts_columns (z : ndarray complex) (alpha : R) :
  cielab_pts (amap angle_of z) (amap (scaledMagnitude alpha) z)
  = amap (fun c => ColorSpacePoint CIELAB (scaledMagnitude alpha c) (angle_of c)) z.
Proof.
  unfold cielab_pts. cbv zeta. fuse. apply amap_ext. intros c.
  apply bicone_column; cbn; lra.
Qed.

Lemma oklab_pts_columns (z : ndarray complex) (alpha : R) :
  oklab_pts (amap angle_of z) (amap (scaledMagnitude alpha) z)
  = amap (fun c => ColorSpacePoint OKLAB (scaledMagnitude alpha c) (angle_of c)) z.
Proof.
  unfold oklab_pts. cbv zeta. fuse. apply amap_ext. intros c.
  apply bicone_column; cbn; lra.
Qed.

Lemma hsl_vals_columns (z : ndarray complex) (alpha : R) :
  hsl_vals (amap angle_of z) (amap (scaledMagnitude alpha) z)
  = amap (fun c => HslPoint (scaledMagnitude alpha c) (angle_of c)) z.
Proof.
  unfold hsl_vals, np_ones. cbv zeta. fuse. reflexivity.
Qed.

(** C1. In each of the three perceptual branches the point array that
    [get_srgb1] builds holds, for every sample, lightness =
    lightnessScale * scaledMagnitude, chroma radius rd = r0 - r0*2*|s - 0.5|,
    axis1 = rd*cos(angle + offset) and axis2 = rd*sin(angle + offset),
    with the constants 100, 25.0, 0.916708*pi (CAM16); 100, 45.0,
    0.8936868*pi (CIELAB); 4.64158795, 0.50, 0.8936868*pi (OKLAB), where
    angle = atan2(imag, real) of the sample. *)
Theorem perceptual_points_follow_table (z : ndarray complex) (alpha : R) :
  let angle := amap (fun c => arctan2 (imag c) (real c)) z in
  let absval_scaled := amap (fun c => abs_scaling alpha (np_abs c)) z in
  (cam_pts angle absval_scaled
   = amap (fun c => ColorSpacePoint CAM16 (scaledMagnitude alpha c) (angle_of c)) z /\
   cielab_pts angle absval_scaled
   = amap (fun c => ColorSpacePoint CIELAB (scaledMagnitude alpha c) (angle_of c)) z /\
   oklab_pts angle absval_scaled
   = amap (fun c => ColorSpacePoint OKLAB (scaledMagnitude alpha c) (angle_of c)) z) /\
  (forall s a : R,
     ColorSpacePoint CAM16 (Fin s) (Fin a)
     = (Fin (100 * s),
        Fin ((25.0 - 25.0 * 2 * Rabs (s - 0.5)) * cos (a + 0.916708 * PI)),
        Fin ((25.0 - 25.0 * 2 * Rabs (s - 0.5)) * sin (a + 0.916708 * PI))) /\
     ColorSpacePoint CIELAB (Fin s) (Fin a)
     = (Fin (100 * s),
        Fin ((45.0 - 45.0 * 2 * Rabs (s - 0.5)) * cos (a + 0.8936868 * PI)),
        Fin ((45.0 - 45.0 * 2 * Rabs (s - 0.5)) * sin (a + 0.8936868 * PI))) /\
     ColorSpacePoint OKLAB (Fin s) (Fin a)
     = (Fin (4.64158795 * s),
        Fin ((0.50 - 0.50 * 2 * Rabs (s - 0.5)) * cos (a + 0.8936868 * PI)),
        Fin ((0.50 - 0.50 * 2 * Rabs (s - 0.5)) * sin (a + 0.8936868 * PI)))).
Proof.
  intros angle absval_scaled. split.
  - split; [apply cam_pts_columns|].
    split; [apply cielab_pts_columns|apply oklab_pts_columns].
  - intros s a. unfold ColorSpacePoint, chromaRadius. cbn.
    unfold Rminus. repeat split; do 2 f_equal; try ring; f_equal; ring.
Qed.

(** *** [get_srgb1], branch by branch *)

Lemma upper_space_name (sp : space) : upper (space_name sp) = space_name sp.
Proof. destruct sp; reflexivity. Qed.

Lemma selects_upper (colorspace : string) (sp : space) :
  selects colorspace sp <-> upper colorspace = space_name sp.
Proof. unfold selects, caseless_eq. now rewrite upper_space_name. Qed.

Lemma assert_alpha_ok (alpha : R) :
  0 <= alpha -> assert (if Rle_dec 0 alpha then true else false) "" = Ok tt.
Proof. intros H. destruct (Rle_dec 0 alpha); [reflexivity|contradiction]. Qed.

Lemma assert_alpha_neg (alpha : R) :
  alpha < 0 ->
  assert (if Rle_dec 0 alpha then true else false) "" = Raise InvalidParameter.
Proof. intros H. destruct (Rle_dec 0 alpha); [lra|reflexivity]. Qed.

Section Branches.
Context {cio : Colorio}.

Lemma srgb_vals_cam16_pixels (z : ndarray complex) (alpha : R) :
  srgb_vals_cam16 (amap angle_of z) (amap (scaledMagnitude alpha) z)
  = amap (pixel CAM16 alpha) z.
Proof.
  unfold srgb_vals_cam16. cbv zeta. rewrite cam_pts_columns. fuse.
  apply amap_ext. intros c. reflexivity.
Qed.

Lemma srgb_vals_cielab_pixels (z : ndarray complex) (alpha : R) :
  srgb_vals_cielab (amap angle_of z) (amap (scaledMagnitude alpha) z)
  = amap (pixel CIELAB alpha) z.
Proof.
  unfold srgb_vals_cielab. cbv zeta. rewrite cielab_pts_columns. fuse.
  apply amap_ext. intros c. reflexivity.
Qed.

Lemma srgb_vals_oklab_pixels (z : ndarray complex) (alpha : R) :
  srgb_vals_oklab (amap angle_of z) (amap (scaledMagnitude alpha) z)
  = amap (pixel OKLAB alpha) z.
Proof.
  unfold srgb_vals_oklab. cbv zeta. rewrite oklab_pts_columns. fuse.
  apply amap_ext. intros c. reflexivity.
Qed.

Lemma srgb_vals_hsl_pixels (z : ndarray complex) (alpha : R) :
  srgb_vals_hsl (amap angle_of z) (amap (scaledMagnitude alpha) z)
  = amap (pixel HSL alpha) z.
Proof.
  unfold srgb_vals_hsl. cbv zeta. rewrite hsl_vals_columns. fuse.
  apply amap_ext. intros c. reflexivity.
Qed.

Lemma get_srgb1_pixels (z : ndarray complex) (alpha : R)
    (colorspace : string) (sp : space) :
  0 <= alpha -> selects colorspace sp ->
  get_srgb1 z alpha colorspace = Ok (moveaxis_0_last (amap (pixel sp alpha) z)).
Proof.
  intros Ha Hs. apply selects_upper in Hs.
  unfold get_srgb1. rewrite assert_alpha_ok by assumption. cbn [bind].
  change (fun c => arctan2 (imag c) (real c)) with angle_of.
  change (fun c => abs_scaling alpha (np_abs c)) with (scaledMagnitude alpha).
  rewrite Hs. destruct sp; cbn.
  - now rewrite srgb_vals_cam16_pixels.
  - now rewrite srgb_vals_cielab_pixels.
  - now rewrite srgb_vals_oklab_pixels.
  - now rewrite srgb_vals_hsl_pixels.
Qed.

Lemma get_srgb1_alpha_neg (z : ndarray complex) (alpha : R) (colorspace : string) :
  alpha < 0 -> get_srgb1 z alpha colorspace = Raise InvalidParameter.
Proof.
  intros Ha. unfold get_srgb1. now rewrite assert_alpha_neg by assumption.
Qed.

Lemma get_srgb1_unsupported (z : ndarray complex) (alpha : R) (colorspace : string) :
  0 <= alpha -> (forall sp, ~ selects colorspace sp) ->
  get_srgb1 z alpha colorspace = Raise (UnsupportedColorSpace colorspace).
Proof.
  intros Ha Hn. unfold get_srgb1. rewrite assert_alpha_ok by assumption.
  cbn [bind].
  assert (H : forall sp, (upper colorspace =? space_name sp)%string = false).
  { intros sp. apply String.eqb_neq. intros E. apply (Hn sp).
    now apply selects_upper. }
  pose proof (H CAM16) as H1. pose proof (H CIELAB) as H2.
  pose proof (H OKLAB) as H3. pose proof (H HSL) as H4. cbn in H1, H2, H3, H4.
  rewrite H1, H2, H3, H4. reflexivity.
Qed.

Lemma selects_dec (colorspace : string) :
  {sp | selects colorspace sp} + {forall sp, ~ selects colorspace sp}.
Proof.
  destruct (string_dec (upper colorspace) "CAM16") as [E1|N1];
    [left; exists CAM16; now apply selects_upper|].
  destruct (string_dec (upper colorspace) "CIELAB") as [E2|N2];
    [left; exists CIELAB; now apply selects_upper|].
  destruct (string_dec (upper colorspace) "OKLAB") as [E3|N3];
    [left; exists OKLAB; now apply selects_upper|].
  destruct (string_dec (upper colorspace) "HSL") as [E4|N4];
    [left; exists HSL; now apply selects_upper|].
  right. intros sp Hs. apply selects_upper in Hs. destruct sp; cbn in Hs; auto.
Qed.

End Branches.

(** *** Angles and hues *)

Lemma two_PI_neq_0 : 2 * PI <> 0.
Proof. pose proof PI_RGT_0. lra. Qed.

Lemma angle_of_one : angle_of (mkC (Fin 1) (Fin 0)) = Fin 0.
Proof.
  unfold angle_of. cbn. destruct (Rlt_dec 0 1); [|lra].
  f_equal. replace (0 / 1) with 0 by field. apply atan_0.
Qed.

Lemma angle_of_minus_one : angle_of (mkC (Fin (-1)) (Fin 0)) = Fin PI.
Proof.
  unfold angle_of. cbn. destruct (Rlt_dec 0 (-1)); [lra|].
  destruct (Rlt_dec (-1) 0); [|lra]. destruct (Rle_dec 0 0); [|lra].
  f_equal. replace (0 / -1) with 0 by field. rewrite atan_0. ring.
Qed.

Lemma angle_of_finite (x y : R) : exists a, angle_of (mkC (Fin x) (Fin y)) = Fin a.
Proof.
  unfold angle_of. cbn.
  destruct (Rlt_dec 0 x); [eauto|]. destruct (Rlt_dec x 0).
  - destruct (Rle_dec 0 y); eauto.
  - destruct (Rlt_dec 0 y); [eauto|]. destruct (Rlt_dec y 0); eauto.
Qed.

Lemma hue_fin (a : R) :
  hue (Fin a)
  = Fin (a / (2 * PI) * 360 + 120
         - 360 * IZR (Int_part ((a / (2 * PI) * 360 + 120) / 360))).
Proof.
  unfold hue. cbn. destruct (Req_dec_T (2 * PI) 0) as [E|_];
    [now apply two_PI_neq_0 in E|].
  cbn. destruct (Req_dec_T 360 0); [lra|reflexivity].
Qed.

Lemma hue_range (a : R) : exists h, hue (Fin a) = Fin h /\ 0 <= h < 360.
Proof.
  rewrite hue_fin. eexists. split; [reflexivity|].
  set (r := a / (2 * PI) * 360 + 120).
  destruct (base_Int_part (r / 360)) as [H1 H2].
  replace r with (360 * (r / 360)) at 1 3 by field. lra.
Qed.

Lemma Int_part_small (x : R) : 0 <= x < 1 -> Int_part x = 0%Z.
Proof. intros H. symmetry. apply Int_part_spec. cbn. lra. Qed.

Lemma hue_zero : hue (Fin 0) = Fin 120.
Proof.
  rewrite hue_fin. f_equal.
  replace (0 / (2 * PI) * 360 + 120) with 120
    by (field; pose proof PI_RGT_0; lra).
  rewrite Int_part_small by lra. cbn. lra.
Qed.

Lemma hue_PI : hue (Fin PI) = Fin 300.
Proof.
  rewrite hue_fin. f_equal.
  replace (PI / (2 * PI) * 360 + 120) with 300
    by (field; pose proof PI_RGT_0; lra).
  rewrite Int_part_small by lra. cbn. lra.
Qed.

(** C6. HSL branch: every sample is mapped to hue =
    mod(angle/(2*pi)*360 + 120, 360) degrees, saturation 1 and lightness
    scaledMagnitude before the HSL conversion; a sample of angle 0, such
    as z = 1, has hue 120 and a sample of angle pi, such as z = -1, has
    hue 300. *)
Theorem hsl_branch_hue {cio : Colorio} (z : ndarray complex) (alpha : R)
    (colorspace : string) :
  0 <= alpha -> selects colorspace HSL ->
  let angle := amap (fun c => arctan2 (imag c) (real c)) z in
  let absval_scaled := amap (fun c => abs_scaling alpha (np_abs c)) z in
  hsl_vals angle absval_scaled
  = amap (fun c =>
            (np_mod (fadd (fmul (fdiv (angle_of c) (Fin (2 * PI))) (Fin 360))
                          (Fin 120)) 360,
             Fin 1,
             scaledMagnitude alpha c)) z /\
  get_srgb1 z alpha colorspace
  = Ok (moveaxis_0_last
          (amap (fun c =>
                   vmap clip_lo
                     (HSL_to_rgb1 (hue (angle_of c), Fin 1, scaledMagnitude alpha c)))
                z)) /\
  angle_of (mkC (Fin 1) (Fin 0)) = Fin 0 /\ hue (Fin 0) = Fin 120 /\
  angle_of (mkC (Fin (-1)) (Fin 0)) = Fin PI /\ hue (Fin PI) = Fin 300.
Proof.
  intros Ha Hs angle absval_scaled.
  split; [apply (hsl_vals_columns z alpha)|].
  split; [now rewrite (get_srgb1_pixels z alpha colorspace HSL)|].
  split; [apply angle_of_one|]. split; [apply hue_zero|].
  split; [apply angle_of_minus_one|apply hue_PI].
Qed.

Lemma hsl_branch_hue_witness :
  0 <= 1 /\ selects "hsl" HSL /\
  get_srgb1 (cio := gray_colorio) (mkArr [2%nat] [mkC (Fin 1) (Fin 0); mkC (Fin (-1)) (Fin 0)])
            1 "hsl"
  = Ok (moveaxis_0_last
          (amap (fun c =>
                   vmap clip_lo
                     (@HSL_to_rgb1 gray_colorio
                        (hue (angle_of c), Fin 1, scaledMagnitude 1 c)))
                (mkArr [2%nat] [mkC (Fin 1) (Fin 0); mkC (Fin (-1)) (Fin 0)]))).
Proof.
  split; [lra|]. split; [reflexivity|].
  apply (hsl_branch_hue (cio := gray_colorio)); [lra|reflexivity].
Defined.

(** *** Clipping *)

Lemma clip01_fin (r : R) : 0 <= r <= 1 -> clip01 (Fin r) = Fin r.
Proof.
  intros H. unfold clip01, clip_hi, clip_lo, fgt. cbn.
  destruct (Rlt_dec 1 r); [lra|]. cbn. destruct (Rlt_dec r 0); [lra|reflexivity].
Qed.

Lemma clip_lo_fin (r : R) : 0 <= r -> clip_lo (Fin r) = Fin r.
Proof.
  intros H. unfold clip_lo. cbn. destruct (Rlt_dec r 0); [lra|reflexivity].
Qed.

Lemma clip01_in01 (v : float64) : v <> NaN -> in01 (clip01 v).
Proof.
  intros Hv. unfold clip01, clip_hi, clip_lo, fgt.
  destruct v as [r|[|]|]; cbn; [| | |contradiction].
  - destruct (Rlt_dec 1 r); cbn.
    + destruct (Rlt_dec 1 0); [lra|]. exists 1. split; [reflexivity|lra].
    + destruct (Rlt_dec r 0); [exists 0|exists r]; (split; [reflexivity|lra]).
  - exists 0. split; [reflexivity|lra].
  - destruct (Rlt_dec 1 0); [lra|]. exists 1. split; [reflexivity|lra].
Qed.

Lemma clip_lo_in01 (v : float64) :
  v <> NaN -> flt (Fin 1) v = false -> in01 (clip_lo v).
Proof.
  intros Hv H1. unfold clip_lo.
  destruct v as [r|[|]|]; cbn in *; [| |discriminate|contradiction].
  - destruct (Rlt_dec 1 r); [discriminate|].
    destruct (Rlt_dec r 0); [exists 0|exists r]; (split; [reflexivity|lra]).
  - exists 0. split; [reflexivity|lra].
Qed.

Lemma fmul_fin_not_nan (v : float64) (k : R) :
  0 < k -> v <> NaN -> fmul v (Fin k) <> NaN.
Proof.
  intros Hk Hv. destruct v as [r|s|]; cbn; [discriminate| |contradiction].
  rewrite sign_of_pos by assumption. discriminate.
Qed.

Lemma post_nan (sp : space) : post sp NaN = NaN.
Proof. destruct sp; reflexivity. Qed.

(** C5, as the code has it. Only the CAM16 branch multiplies the
    decoded display colours by 1.1 before clipping them into [0, 1];
    the CIELAB and OKLAB branches clip the decoded values as they are,
    and the HSL branch applies no multiplier (it only raises negative
    values to 0). *)
Theorem post_multiplier_by_branch {cio : Colorio} (z : ndarray complex)
    (alpha : R) (colorspace : string) :
  0 <= alpha ->
  (selects colorspace CAM16 ->
   get_srgb1 z alpha colorspace
   = Ok (moveaxis_0_last
           (amap (fun c =>
                    vmap (fun v => clip01 (fmul v (Fin 1.1)))
                         (decode CAM16
                            (ColorSpacePoint CAM16 (scaledMagnitude alpha c)
                                             (angle_of c)))) z))) /\
  (selects colorspace CIELAB ->
   get_srgb1 z alpha colorspace
   = Ok (moveaxis_0_last
           (amap (fun c =>
                    vmap clip01
                         (decode CIELAB
                            (ColorSpacePoint CIELAB (scaledMagnitude alpha c)
                                             (angle_of c)))) z))) /\
  (selects colorspace OKLAB ->
   get_srgb1 z alpha colorspace
   = Ok (moveaxis_0_last
           (amap (fun c =>
                    vmap clip01
                         (decode OKLAB
                            (ColorSpacePoint OKLAB (scaledMagnitude alpha c)
                                             (angle_of c)))) z))) /\
  (selects colorspace HSL ->
   get_srgb1 z alpha colorspace
   = Ok (moveaxis_0_last
           (amap (fun c =>
                    vmap clip_lo
                         (decode HSL
                            (HslPoint (scaledMagnitude alpha c) (angle_of c)))) z))).
Proof.
  intros Ha.
  split; [intros Hs; now rewrite (get_srgb1_pixels z alpha colorspace CAM16)|].
  split; [intros Hs; now rewrite (get_srgb1_pixels z alpha colorspace CIELAB)|].
  split; [intros Hs; now rewrite (get_srgb1_pixels z alpha colorspace OKLAB)|].
  intros Hs. now rewrite (get_srgb1_pixels z alpha colorspace HSL).
Qed.

Lemma gray_cielab_value :
  get_srgb1 (cio := gray_colorio) (mkArr [1%nat] [mkC (Fin 1) (Fin 0)]) 1 "CIELAB"
  = Ok (mkArr [1%nat; 3%nat] [Fin 0.5; Fin 0.5; Fin 0.5]).
Proof.
  rewrite (get_srgb1_pixels _ 1 "CIELAB" CIELAB) by (lra || reflexivity).
  unfold moveaxis_0_last, amap, pixel, vmap. cbn.
  change (clip_lo (clip_hi (Fin 0.5))) with (clip01 (Fin 0.5)).
  rewrite clip01_fin by lra. reflexivity.
Qed.

Lemma post_multiplier_by_branch_witness :
  0 <= 1 /\ selects "CIELAB" CIELAB /\
  get_srgb1 (cio := gray_colorio) (mkArr [1%nat] [mkC (Fin 1) (Fin 0)]) 1 "CIELAB"
  = Ok (moveaxis_0_last
          (amap (fun c =>
                   vmap clip01
                        (decode (cio := gray_colorio) CIELAB
                           (ColorSpacePoint CIELAB (scaledMagnitude 1 c)
                                            (angle_of c))))
                (mkArr [1%nat] [mkC (Fin 1) (Fin 0)]))).
Proof.
  split; [lra|]. split; [reflexivity|].
  destruct (post_multiplier_by_branch (cio := gray_colorio)
              (mkArr [1%nat] [mkC (Fin 1) (Fin 0)]) 1 "CIELAB") as (_ & H & _);
    [lra|].
  apply H. reflexivity.
Defined.

(** C5 as stated fails for CIELAB: where the conversion yields the
    channel value 0.5, [get_srgb1] returns 0.5, not 1.1 * 0.5 = 0.55. *)
Lemma cielab_not_post_multiplied :
  let z := mkArr [1%nat] [mkC (Fin 1) (Fin 0)] in
  get_srgb1 (cio := gray_colorio) z 1 "CIELAB"
  = Ok (mkArr [1%nat; 3%nat] [Fin 0.5; Fin 0.5; Fin 0.5]) /\
  moveaxis_0_last (amap (post_multiplied_pixel (cio := gray_colorio) CIELAB 1) z)
  = mkArr [1%nat; 3%nat] [Fin 0.55; Fin 0.55; Fin 0.55] /\
  get_srgb1 (cio := gray_colorio) z 1 "CIELAB"
  <> Ok (moveaxis_0_last
           (amap (post_multiplied_pixel (cio := gray_colorio) CIELAB 1) z)).
Proof.
  intros z.
  assert (H1 : get_srgb1 (cio := gray_colorio) z 1 "CIELAB"
               = Ok (mkArr [1%nat; 3%nat] [Fin 0.5; Fin 0.5; Fin 0.5]))
    by apply gray_cielab_value.
  assert (H2 : moveaxis_0_last
                 (amap (post_multiplied_pixel (cio := gray_colorio) CIELAB 1) z)
               = mkArr [1%nat; 3%nat] [Fin 0.55; Fin 0.55; Fin 0.55]).
  { unfold moveaxis_0_last, amap, post_multiplied_pixel, vmap, post_multiplied.
    cbn. replace (0.5 * 1.1) with 0.55 by lra.
    rewrite clip01_fin by lra. reflexivity. }
  split; [exact H1|]. split; [exact H2|].
  rewrite H1, H2. intros E. injection E as E. lra.
Qed.

(** *** Selector and parameter checks *)

Lemma exn_names_differ (colorspace : string) :
  UnsupportedColorSpace colorspace <> InvalidParameter.
Proof. unfold UnsupportedColorSpace, InvalidParameter. cbn. discriminate. Qed.

(** C8. [get_srgb1] accepts a selector exactly when it matches one of
    CAM16, CIELAB, OKLAB, HSL without regard to case; a case variant of
    a name selects the branch of that name; any other selector makes it
    fail with UnsupportedColorSpace (an AssertionError). *)
Theorem selector_handling {cio : Colorio} (z : ndarray complex) (alpha : R)
    (colorspace : string) :
  0 <= alpha ->
  ((exists sp, selects colorspace sp) <->
   (exists out, get_srgb1 z alpha colorspace = Ok out)) /\
  (forall sp, selects colorspace sp ->
     get_srgb1 z alpha colorspace = get_srgb1 z alpha (space_name sp) /\
     get_srgb1 z alpha colorspace
     = Ok (moveaxis_0_last (amap (pixel sp alpha) z))) /\
  ((forall sp, ~ selects colorspace sp) ->
     get_srgb1 z alpha colorspace = Raise (UnsupportedColorSpace colorspace)).
Proof.
  intros Ha. split; [|split].
  - split.
    + intros [sp Hs]. eexists. apply (get_srgb1_pixels z alpha colorspace sp Ha Hs).
    + intros [out Hout]. destruct (selects_dec colorspace) as [[sp Hs]|Hn].
      * now exists sp.
      * rewrite get_srgb1_unsupported in Hout by assumption. discriminate.
  - intros sp Hs. split.
    + rewrite (get_srgb1_pixels z alpha colorspace sp Ha Hs).
      symmetry. apply get_srgb1_pixels; [assumption|].
      unfold selects, caseless_eq. reflexivity.
    + apply (get_srgb1_pixels z alpha colorspace sp Ha Hs).
  - intros Hn. now apply get_srgb1_unsupported.
Qed.

Lemma selector_handling_witness :
  0 <= 1 /\ selects "cam16" CAM16 /\
  get_srgb1 (cio := gray_colorio) (mkArr [1%nat] [mkC (Fin 1) (Fin 0)]) 1 "cam16"
  = get_srgb1 (cio := gray_colorio) (mkArr [1%nat] [mkC (Fin 1) (Fin 0)]) 1 "CAM16".
Proof.
  split; [lra|]. split; [reflexivity|].
  destruct (selector_handling (cio := gray_colorio)
              (mkArr [1%nat] [mkC (Fin 1) (Fin 0)]) 1 "cam16") as (_ & H & _);
    [lra|].
  destruct (H CAM16) as [H1 _]; [reflexivity|]. exact H1.
Defined.

(** *** Non-finite samples *)

Lemma np_abs_non_finite (c : complex) :
  ~ finite_sample c -> np_abs c = Inf false \/ np_abs c = NaN.
Proof.
  intros H. unfold np_abs, finite_sample in *.
  destruct (real c) as [x|s|], (imag c) as [y|t|]; cbn in *; auto.
  exfalso. apply H. split; exact I.
Qed.

Lemma scaledMagnitude_non_finite (alpha : R) (c : complex) :
  0 < alpha -> ~ finite_sample c -> scaledMagnitude alpha c = NaN.
Proof.
  intros Ha H. unfold scaledMagnitude.
  destruct (np_abs_non_finite c H) as [-> | ->].
  - now apply abs_scaling_inf.
  - apply abs_scaling_nan. lra.
Qed.

Lemma ColorSpacePoint_nan (sp : space) (a : float64) :
  ColorSpacePoint sp NaN a = (NaN, NaN, NaN).
Proof. reflexivity. Qed.

Lemma angle_of_nan (c : complex) :
  real c = NaN \/ imag c = NaN -> angle_of c = NaN.
Proof.
  unfold angle_of. intros [H|H]; rewrite H; [|reflexivity].
  now destruct (imag c).
Qed.



(** At alpha = 0 the scaler is the constant 0.5 ([x ** 0] is 1 for every
    [x], NaN and infinity included): the infinite sample inf + 0j then
    gives the very output of the sample 1 + 0j. *)
Remark alpha_zero_scaler_is_constant :
  (forall r, abs_scaling 0 r = Fin 0.5) /\
  angle_of (mkC (Inf false) (Fin 0)) = Fin 0 /\
  forall (cio : Colorio) (colorspace : string),
    get_srgb1 (mkArr [1%nat] [mkC (Inf false) (Fin 0)]) 0 colorspace
    = get_srgb1 (mkArr [1%nat] [mkC (Fin 1) (Fin 0)]) 0 colorspace.
Proof.
  split; [apply abs_scaling_alpha0|]. split; [reflexivity|].
  intros cio colorspace. unfold get_srgb1.
  assert (Hang : amap (fun c => arctan2 (imag c) (real c))
                   (mkArr [1%nat] [mkC (Inf false) (Fin 0)])
                 = amap (fun c => arctan2 (imag c) (real c))
                     (mkArr [1%nat] [mkC (Fin 1) (Fin 0)])).
  { unfold amap. cbn [data shape map]. do 2 f_equal.
    symmetry. apply angle_of_one. }
  assert (Habs : amap (fun c => abs_scaling 0 (np_abs c))
                   (mkArr [1%nat] [mkC (Inf false) (Fin 0)])
                 = amap (fun c => abs_scaling 0 (np_abs c))
                     (mkArr [1%nat] [mkC (Fin 1) (Fin 0)])).
  { unfold amap. cbn [data shape map]. now rewrite !abs_scaling_alpha0. }
  rewrite Hang, Habs. reflexivity.
Qed.

(** *** Shape and range of the result *)

Lemma finite_sample_inv (c : complex) :
  finite_sample c -> exists x y, c = mkC (Fin x) (Fin y).
Proof.
  destruct c as [re im]. unfold finite_sample. cbn.
  destruct re, im; intros [H1 H2]; try contradiction. eauto.
Qed.

Lemma scaledMagnitude_finite (alpha : R) (c : complex) :
  0 <= alpha -> finite_sample c ->
  exists s, scaledMagnitude alpha c = Fin s /\ 0 <= s <= 1.
Proof.
  intros Ha Hc. destruct (finite_sample_inv c Hc) as (x & y & ->).
  unfold scaledMagnitude, np_abs. cbn.
  rewrite abs_scaling_fin by (try apply sqrt_pos; assumption).
  eexists. split; [reflexivity|apply scale_range].
Qed.

Lemma point_of_finite (sp : space) (s a : R) :
  vec3_all is_finite (point_of sp (Fin s) (Fin a)).
Proof.
  destruct sp; cbn; try (repeat split; exact I).
  unfold HslPoint, vec3_all. cbn [fst snd].
  destruct (hue_range a) as (h & -> & _). repeat split; exact I.
Qed.

Lemma length_moveaxis (a : ndarray vec3) :
  List.length (data (moveaxis_0_last a)) = (3 * List.length (data a))%nat.
Proof.
  unfold moveaxis_0_last. cbn [data].
  induction (data a) as [|v l IH]; cbn [flat_map List.length app];
    [reflexivity|].
  rewrite IH. lia.
Qed.

Lemma Forall_moveaxis (P : float64 -> Prop) (a : ndarray vec3) :
  Forall (vec3_all P) (data a) -> Forall P (data (moveaxis_0_last a)).
Proof.
  unfold moveaxis_0_last. cbn [data]. intros H.
  induction H as [|v l (H1 & H2 & H3) _ IH]; cbn [flat_map app];
    [constructor|].
  repeat (constructor; [assumption|]). exact IH.
Qed.

Section Range.
Context {cio : Colorio}.
Variables (sp : space) (alpha : R).
Hypothesis alpha_ok : 0 <= alpha.

(** What is assumed of the conversions of [colorio]: a finite point
    converts to channels that are not NaN; and the HSL conversion of a
    point with hue in [0, 360), saturation 1 and lightness in [0, 1]
    yields no channel above 1 (the HSL branch clips from below only). *)
Hypothesis decode_not_nan :
  forall p, vec3_all is_finite p -> vec3_all (fun v => v <> NaN) (decode sp p).
Hypothesis hsl_at_most_one :
  sp = HSL ->
  forall h l, 0 <= h < 360 -> 0 <= l <= 1 ->
    vec3_all (fun v => flt (Fin 1) v = false) (decode HSL (Fin h, Fin 1, Fin l)).

Lemma pixel_in01 (c : complex) :
  finite_sample c -> vec3_all in01 (pixel sp alpha c).
Proof.
  intros Hc. unfold pixel.
  destruct (scaledMagnitude_finite alpha c alpha_ok Hc) as (s & Hs & Hrange).
  destruct (finite_sample_inv c Hc) as (x & y & ->).
  destruct (angle_of_finite x y) as (a & Ha).
  rewrite Hs, Ha.
  pose proof (decode_not_nan _ (point_of_finite sp s a)) as (N1 & N2 & N3).
  destruct sp eqn:Esp; unfold vmap, vec3_all, post; cbn [fst snd].
  - repeat split; apply clip01_in01; apply fmul_fin_not_nan; (lra || assumption).
  - repeat split; apply clip01_in01; assumption.
  - repeat split; apply clip01_in01; assumption.
  - cbn [point_of] in *. unfold HslPoint in *.
    destruct (hue_range a) as (h & Hh & Hhr). rewrite Hh in *.
    destruct (hsl_at_most_one eq_refl h s Hhr Hrange) as (M1 & M2 & M3).
    repeat split; apply clip_lo_in01; assumption.
Qed.

End Range.



(** *** [plot] *)

Lemma bind_ok {A B : Type} (m : result A) (k : A -> result B) (b : B) :
  bind m k = Ok b -> exists a, m = Ok a /\ k a = Ok b.
Proof. destruct m as [a|e]; cbn; [eauto|discriminate]. Qed.

Lemma x_plus_1j_y_fin (x y : R) :
  x_plus_1j_y (Fin x) (Fin y) = mkC (Fin x) (Fin y).
Proof. unfold x_plus_1j_y, cadd, cmul. cbn. f_equal; f_equal; ring. Qed.

Lemma np_linspace_ok (start stop : R) (num : Z) :
  (0 <= num)%Z -> exists l, np_linspace start stop num = Ok l.
Proof.
  intros H. unfold np_linspace.
  destruct (Z.ltb_spec num 0); [lia|]. eauto.
Qed.

Lemma _get_z_grid_ok (xminmax yminmax : R * R) (nx ny : Z) :
  (0 < nx)%Z -> (0 < ny)%Z ->
  exists Z, _get_z_grid xminmax yminmax (nx, ny) = Ok Z.
Proof.
  intros Hx Hy. destruct xminmax as [xmin xmax], yminmax as [ymin ymax].
  unfold _get_z_grid, py_div.
  destruct (Z.eqb_spec nx 0); [lia|]. cbn [bind].
  destruct (np_linspace_ok (xmin + (xmax - xmin) / IZR nx / 2)
              (xmax - (xmax - xmin) / IZR nx / 2) nx) as [x ->]; [lia|].
  cbn [bind]. destruct (Z.eqb_spec ny 0); [lia|]. cbn [bind].
  destruct (np_linspace_ok (ymin + (ymax - ymin) / IZR ny / 2)
              (ymax - (ymax - ymin) / IZR ny / 2) ny) as [y ->]; [lia|].
  cbn [bind]. eauto.
Qed.

Section PlotFacts.
Context {cio : Colorio} {plt : Pyplot}.
Variable f : complex -> complex.

(** [plot] returns for a well-formed request. *)
Lemma plot_returns (xmin xmax ymin ymax : R) (k : Z) (alpha : R)
    (colorspace : string) (sp : space) (contour_abs contour_arg : bool) :
  xmin < xmax -> ymin < ymax -> (0 < k)%Z -> 0 <= alpha ->
  selects colorspace sp ->
  exists calls,
    plot f (xmin, xmax) (ymin, ymax) (n_int k) alpha colorspace
         contour_abs contour_arg = Ok calls.
Proof.
  intros Hx Hy Hk Ha Hs. unfold plot.
  destruct (Rlt_dec xmin xmax); [|contradiction].
  destruct (Rlt_dec ymin ymax); [|contradiction]. cbn [assert bind].
  destruct (_get_z_grid_ok (xmin, xmax) (ymin, ymax) k k Hk Hk) as [Z ->].
  cbn [bind]. rewrite (get_srgb1_pixels _ alpha colorspace sp Ha Hs).
  cbn [bind]. eauto.
Qed.

(** The calls [plot] makes, whenever it returns. *)
Lemma plot_calls (xminmax yminmax : R * R) (n : n_arg) (alpha : R)
    (colorspace : string) (contour_abs contour_arg : bool)
    (calls : list plt_call) :
  plot f xminmax yminmax n alpha colorspace contour_abs contour_arg = Ok calls ->
  exists Z img,
    let fZ := amap f Z in
    let X := amap real Z in
    let Y := amap imag Z in
    let abs_levels := [Fin 0.1; Fin 100.0] in
    let arg_levels := [Fin (-0.5 * PI); Fin 0.0; Fin (0.5 * PI)] in
    get_srgb1 fZ alpha colorspace = Ok img /\
    calls
    = [imshow img (np_min X, np_max X, np_min Y, np_max Y)]
      ++ (if contour_abs then
            [contour X Y (amap np_abs fZ) abs_levels "#a0a0a050"
                     (contour_allsegs X Y (amap np_abs fZ) abs_levels)]
          else [])
      ++ (if contour_arg then
            [contour X Y (amap np_angle fZ) arg_levels "#a0a0a050"
                     (mask_allsegs f arg_levels
                        (contour_allsegs X Y (amap np_angle fZ) arg_levels))]
          else []).
Proof.
  destruct xminmax as [xmin xmax], yminmax as [ymin ymax]. unfold plot.
  intros H.
  apply bind_ok in H as (_ & _ & H). apply bind_ok in H as (_ & _ & H).
  apply bind_ok in H as (nxy & _ & H). apply bind_ok in H as (Z & _ & H).
  apply bind_ok in H as (img & Himg & H).
  exists Z, img. cbv zeta. split; [exact Himg|].
  injection H as <-. destruct contour_abs, contour_arg; reflexivity.
Qed.

End PlotFacts.

(** *** The contour masker *)

Section Masker.
Variable f : complex -> complex.

Lemma mask_allsegs_nth (levels : list float64) (allsegs : list (list segment))
    (k : nat) (level : float64) (allseg : list segment) :
  nth_error levels k = Some level -> nth_error allsegs k = Some allseg ->
  nth_error (mask_allsegs f levels allsegs) k
  = Some (map (mask_segment f level) allseg).
Proof.
  revert allsegs k.
  induction levels as [|l levels IH]; intros allsegs k Hl Ha.
  - destruct k; discriminate.
  - destruct allsegs as [|a allsegs]; [destruct k; discriminate|].
    destruct k as [|k]; cbn in *.
    + injection Hl as <-. injection Ha as <-. reflexivity.
    + now apply IH.
Qed.

Lemma mask_allsegs_length (levels : list float64) (allsegs : list (list segment)) :
  List.length (mask_allsegs f levels allsegs) = List.length allsegs.
Proof.
  revert allsegs. induction levels as [|l levels IH]; intros [|a allsegs];
    cbn; try reflexivity. now rewrite IH.
Qed.

Lemma mask_segment_nth (level : float64) (s : segment) (i : nat) (p : point) :
  nth_error s i = Some p ->
  nth_error (mask_segment f level s) i
  = Some (if is_false f level p then nan_point else p).
Proof.
  intros H. unfold mask_segment.
  apply (map_nth_error (fun q => if is_false f level q then nan_point else q) i s H).
Qed.

Lemma mask_point (levels : list float64) (allsegs : list (list segment))
    (k j i : nat) (level : float64) (allseg : list segment) (seg : segment)
    (p : point) :
  nth_error levels k = Some level -> nth_error allsegs k = Some allseg ->
  nth_error allseg j = Some seg -> nth_error seg i = Some p ->
  exists allseg' seg',
    nth_error (mask_allsegs f levels allsegs) k = Some allseg' /\
    nth_error allseg' j = Some seg' /\
    List.length seg' = List.length seg /\
    nth_error seg' i = Some (if is_false f level p then nan_point else p).
Proof.
  intros Hl Ha Hj Hi.
  exists (map (mask_segment f level) allseg), (mask_segment f level seg).
  split; [now apply mask_allsegs_nth|].
  split; [now apply map_nth_error|].
  split; [unfold mask_segment; apply length_map|].
  now apply mask_segment_nth.
Qed.

End Masker.

(** C4. When phase contours are requested, every point of every segment
    extracted at a requested level has its phase recomputed as
    [angle(f(x + 1j*y))] and is replaced by NaN exactly when
    [|angle - pi| < |angle - level|] or [|angle + pi| < |angle - level|];
    every other point is left as it is, and no point is added or
    removed. *)
Theorem contour_masking_condition {cio : Colorio} {plt : Pyplot}
    (f : complex -> complex) (xminmax yminmax : R * R) (n : n_arg) (alpha : R)
    (colorspace : string) (contour_abs : bool) (calls : list plt_call) :
  plot f xminmax yminmax n alpha colorspace contour_abs true = Ok calls ->
  exists before X Y field,
    let levels := [Fin (-0.5 * PI); Fin 0.0; Fin (0.5 * PI)] in
    let raw := contour_allsegs X Y field levels in
    calls = before ++ [contour X Y field levels "#a0a0a050"
                               (mask_allsegs f levels raw)] /\
    List.length (mask_allsegs f levels raw) = List.length raw /\
    (forall x y, x_plus_1j_y (Fin x) (Fin y) = mkC (Fin x) (Fin y)) /\
    forall k level allseg j seg i p,
      nth_error levels k = Some level -> nth_error raw k = Some allseg ->
      nth_error allseg j = Some seg -> nth_error seg i = Some p ->
      exists allseg' seg',
        nth_error (mask_allsegs f levels raw) k = Some allseg' /\
        nth_error allseg' j = Some seg' /\
        List.length seg' = List.length seg /\
        let angle := np_angle (f (x_plus_1j_y (fst p) (snd p))) in
        nth_error seg' i
        = Some (if flt (fabs (fsub angle (Fin PI))) (fabs (fsub angle level))
                   || flt (fabs (fadd angle (Fin PI))) (fabs (fsub angle level))
                then (NaN, NaN) else p).
Proof.
  intros H. apply plot_calls in H as (Z & img & _ & ->).
  eexists _, _, _, _. cbv zeta.
  split; [rewrite app_assoc; reflexivity|].
  split; [apply mask_allsegs_length|].
  split; [apply x_plus_1j_y_fin|].
  intros k level allseg j seg i p Hl Ha Hj Hi.
  apply (mask_point f _ _ k j i level allseg seg p Hl Ha Hj Hi).
Qed.

Lemma contour_masking_condition_witness :
  let raw := [[]; [[(Fin (-1), Fin 0); (Fin 1, Fin 0)]]; []] in
  let levels := [Fin (-0.5 * PI); Fin 0.0; Fin (0.5 * PI)] in
  exists calls,
    plot (cio := gray_colorio) (plt := fixed_pyplot raw) (fun c => c)
         (-2, 2) (-2, 2) (n_int 2) 1 "cam16" false true = Ok calls /\
    exists before X Y field,
      calls = before ++ [contour X Y field levels "#a0a0a050"
                                 (mask_allsegs (fun c => c) levels raw)].
Proof.
  intros raw levels.
  destruct (plot_returns (cio := gray_colorio) (plt := fixed_pyplot raw)
              (fun c => c) (-2) 2 (-2) 2 2 1 "cam16" CAM16 false true)
    as [calls H]; [lra|lra|lia|lra|reflexivity|].
  exists calls. split; [exact H|].
  destruct (contour_masking_condition (cio := gray_colorio)
              (plt := fixed_pyplot raw) (fun c => c) (-2, 2) (-2, 2) (n_int 2)
              1 "cam16" false calls H)
    as (before & X & Y & field & Hc & _).
  exists before, X, Y, field. exact Hc.
Defined.

(** On the level 0, the identity function and a segment through -1 and
    1: the point -1 has phase pi, nearer to the wrap than to the level,
    and is masked; the point 1 has phase 0 and is kept. *)
Example mask_segment_identity :
  mask_segment (fun c => c) (Fin 0.0) [(Fin (-1), Fin 0); (Fin 1, Fin 0)]
  = [(NaN, NaN); (Fin 1, Fin 0)].
Proof.
  pose proof PI_RGT_0 as Hpi.
  unfold mask_segment, is_false. cbn [map fst snd].
  rewrite !x_plus_1j_y_fin.
  change (np_angle (mkC (Fin (-1)) (Fin 0))) with (angle_of (mkC (Fin (-1)) (Fin 0))).
  change (np_angle (mkC (Fin 1) (Fin 0))) with (angle_of (mkC (Fin 1) (Fin 0))).
  rewrite angle_of_minus_one, angle_of_one. cbn.
  replace (PI + - PI) with 0 by ring. rewrite Rabs_R0.
  replace (PI + - 0.0) with PI by lra. rewrite (Rabs_pos_eq PI) by lra.
  destruct (Rlt_dec 0 PI); [|lra]. cbn.
  replace (0 + - PI) with (- PI) by ring. rewrite Rabs_Ropp.
  replace (0 + - 0.0) with 0 by lra. replace (0 + PI) with PI by ring.
  rewrite Rabs_R0, (Rabs_pos_eq PI) by lra.
  destruct (Rlt_dec PI 0); [lra|]. reflexivity.
Qed.

(** C10. The contour levels are constants of [plot]: whatever the
    arguments, a magnitude contour (requested by [contour_abs]) is
    drawn on [abs(f(Z))] at exactly the levels 0.1 and 100.0, a phase
    contour (requested by [contour_arg]) on [angle(f(Z))] at exactly
    -pi/2, 0 and pi/2, and no other contour is drawn; [show] and
    [savefig] pass their arguments to [plot] and draw the same. *)
Theorem contour_levels_fixed {cio : Colorio} {plt : Pyplot}
    (f : complex -> complex) (xminmax yminmax : R * R) (n : n_arg) (alpha : R)
    (colorspace : string) (contour_abs contour_arg : bool)
    (calls : list plt_call) :
  plot f xminmax yminmax n alpha colorspace contour_abs contour_arg = Ok calls ->
  let expected :=
    (if contour_abs then [[Fin 0.1; Fin 100]] else [])
    ++ (if contour_arg then [[Fin (- (PI / 2)); Fin 0; Fin (PI / 2)]] else []) in
  (exists Z img abs_segs arg_segs,
     calls
     = [imshow img (np_min (amap real Z), np_max (amap real Z),
                    np_min (amap imag Z), np_max (amap imag Z))]
       ++ (if contour_abs then
             [contour (amap real Z) (amap imag Z) (amap np_abs (amap f Z))
                      [Fin 0.1; Fin 100] "#a0a0a050" abs_segs]
           else [])
       ++ (if contour_arg then
             [contour (amap real Z) (amap imag Z) (amap np_angle (amap f Z))
                      [Fin (- (PI / 2)); Fin 0; Fin (PI / 2)] "#a0a0a050" arg_segs]
           else [])) /\
  contour_levels calls = expected /\
  (show f xminmax yminmax n alpha colorspace contour_abs contour_arg
   = Ok (calls ++ [plt_show]) /\
   contour_levels (calls ++ [plt_show]) = expected) /\
  (forall filename,
     savefig f filename xminmax yminmax n alpha colorspace contour_abs contour_arg
     = Ok (calls ++ [plt_savefig filename]) /\
     contour_levels (calls ++ [plt_savefig filename]) = expected).
Proof.
  intros H expected.
  assert (E1 : -0.5 * PI = - (PI / 2)) by lra.
  assert (E2 : 0.5 * PI = PI / 2) by lra.
  assert (E3 : 0.0 = 0) by lra.
  assert (E4 : 100.0 = 100) by lra.
  pose proof H as Hc. apply plot_calls in Hc as (Z & img & _ & Hc).
  cbv zeta in Hc. rewrite E1, E2, E3, E4 in Hc.
  assert (Hl : contour_levels calls = expected).
  { subst calls expected. destruct contour_abs, contour_arg; reflexivity. }
  assert (Hl' : forall c, contour_levels [c] = [] ->
                          contour_levels (calls ++ [c]) = expected).
  { intros c Hcl. unfold contour_levels in *.
    rewrite flat_map_app, Hl, Hcl. apply app_nil_r. }
  split; [|split; [exact Hl|split]].
  - do 4 eexists. exact Hc.
  - unfold show. rewrite H. split; [reflexivity|]. now apply Hl'.
  - intros filename. unfold savefig. rewrite H. split; [reflexivity|].
    now apply Hl'.
Qed.

Lemma contour_levels_fixed_witness :
  exists calls,
    plot (cio := gray_colorio) (plt := fixed_pyplot []) (fun c => c)
         (-2, 2) (-2, 2) (n_int 2) 1 "cam16" true true = Ok calls /\
    contour_levels calls
    = [[Fin 0.1; Fin 100]; [Fin (- (PI / 2)); Fin 0; Fin (PI / 2)]].
Proof.
  destruct (plot_returns (cio := gray_colorio) (plt := fixed_pyplot [])
              (fun c => c) (-2) 2 (-2) 2 2 1 "cam16" CAM16 true true)
    as [calls H]; [lra|lra|lia|lra|reflexivity|].
  exists calls. split; [exact H|].
  destruct (contour_levels_fixed (cio := gray_colorio) (plt := fixed_pyplot [])
              (fun c => c) (-2, 2) (-2, 2) (n_int 2) 1 "cam16" true true calls H)
    as (_ & Hl & _).
  exact Hl.
Defined.

(** * Further properties of the code *)

(** ** The scaler, beyond the boundary values *)

Lemma flt_fin (a b : R) : flt (Fin a) (Fin b) = true <-> a < b.
Proof.
  cbn. destruct (Rlt_dec a b); split; intros H; try reflexivity;
    try assumption; try discriminate; contradiction.
Qed.

Lemma rpow_increasing (r1 r2 alpha : R) :
  0 <= r1 < r2 -> 0 < alpha -> rpow r1 alpha < rpow r2 alpha.
Proof.
  intros [H1 H2] Ha. unfold rpow.
  destruct (Req_dec_T r2 0); [lra|].
  destruct (Req_dec_T r1 0).
  - destruct (Req_dec_T alpha 0); [lra|apply Rpower_pos].
  - apply Rlt_Rpower_l; [assumption|lra].
Qed.

Lemma scale_increasing (r1 r2 alpha : R) :
  0 <= r1 < r2 -> 0 < alpha -> scale r1 alpha < scale r2 alpha.
Proof.
  intros H Ha. unfold scale.
  pose proof (rpow_increasing r1 r2 alpha H Ha) as Hp.
  pose proof (rpow_nonneg r1 alpha) as H1.
  set (p := rpow r1 alpha) in *. set (q := rpow r2 alpha) in *.
  apply Rmult_lt_reg_r with ((p + 1) * (q + 1)); [nra|].
  replace (p / (p + 1) * ((p + 1) * (q + 1))) with (p * (q + 1))
    by (field; lra).
  replace (q / (q + 1) * ((p + 1) * (q + 1))) with (q * (p + 1))
    by (field; lra).
  lra.
Qed.

Lemma scale_one (alpha : R) : scale 1 alpha = 0.5.
Proof.
  unfold scale, rpow. destruct (Req_dec_T 1 0); [lra|].
  unfold Rpower. rewrite ln_1, Rmult_0_r, exp_0. lra.
Qed.







(** ** Geometry of the perceptual points *)

Lemma sin_cos_square (x : R) : cos x * cos x + sin x * sin x = 1.
Proof. pose proof (sin2_cos2 x) as H. unfold Rsqr in H. lra. Qed.

Lemma ColorSpacePoint_on_bicone (sp : space) (s a : R) :
  0 < lightnessScale sp -> 0 < r0_of sp -> 0 <= s <= 1 ->
  on_bicone (lightnessScale sp) (r0_of sp) (ColorSpacePoint sp (Fin s) (Fin a)).
Proof.
  intros HL Hr Hs. unfold ColorSpacePoint, chromaRadius, on_bicone.
  cbn [fmul fsub fadd fopp fabs fcos fsin].
  do 3 eexists. split; [reflexivity|].
  set (L := lightnessScale sp) in *. set (r0 := r0_of sp) in *.
  split; [nra|].
  replace (L * s / L) with s by (field; lra).
  replace (r0 + - (r0 * (2 * Rabs (s + - (0.5)))))
    with (r0 - r0 * 2 * Rabs (s - 0.5)) by (unfold Rminus; ring).
  cbv zeta. set (rd := r0 - r0 * 2 * Rabs (s - 0.5)).
  split.
  - pose proof (sin_cos_square (a + hue_offset sp)) as H.
    replace (rd * cos (a + hue_offset sp) * (rd * cos (a + hue_offset sp))
             + rd * sin (a + hue_offset sp) * (rd * sin (a + hue_offset sp)))
      with (rd * rd * (cos (a + hue_offset sp) * cos (a + hue_offset sp)
                       + sin (a + hue_offset sp) * sin (a + hue_offset sp)))
      by ring.
    rewrite H. ring.
  - subst rd. unfold Rabs. destruct (Rcase_abs (s - 0.5)); nra.
Qed.

Lemma finite_sample_point (sp : space) (alpha : R) (c : complex) :
  0 <= alpha -> finite_sample c ->
  exists s a,
    scaledMagnitude alpha c = Fin s /\ angle_of c = Fin a /\ 0 <= s <= 1.
Proof.
  intros Ha Hc.
  destruct (scaledMagnitude_finite alpha c Ha Hc) as (s & Hs & Hr).
  destruct (finite_sample_inv c Hc) as (x & y & ->).
  destruct (angle_of_finite x y) as (a & Hang).
  exists s, a. auto.
Qed.



Lemma np_abs_nonneg (c : complex) (r : R) : np_abs c = Fin r -> 0 <= r.
Proof.
  unfold np_abs. destruct (real c), (imag c); try discriminate.
  intros [= <-]. apply sqrt_pos.
Qed.



(** ** Phases and hues *)

Lemma atan_nonpos (t : R) : t <= 0 -> atan t <= 0.
Proof.
  intros [H| ->]; [|rewrite atan_0; lra].
  pose proof (atan_increasing t 0 H) as Hi. rewrite atan_0 in Hi. lra.
Qed.

Lemma atan_pos (t : R) : 0 < t -> 0 < atan t.
Proof.
  intros H. pose proof (atan_increasing 0 t H) as Hi. now rewrite atan_0 in Hi.
Qed.

Lemma angle_of_range (x y a : R) :
  angle_of (mkC (Fin x) (Fin y)) = Fin a -> - PI < a <= PI.
Proof.
  pose proof PI_RGT_0 as Hpi.
  unfold angle_of. cbn.
  destruct (Rlt_dec 0 x) as [Hx|Hx].
  - intros [= <-]. pose proof (atan_bound (y / x)). lra.
  - destruct (Rlt_dec x 0) as [Hx'|Hx'].
    + assert (Hix : / x < 0) by now apply Rinv_lt_0_compat.
      destruct (Rle_dec 0 y) as [Hy|Hy]; intros [= <-].
      * pose proof (atan_bound (y / x)).
        assert (Hq : y / x <= 0) by (unfold Rdiv; nra).
        pose proof (atan_nonpos _ Hq). lra.
      * pose proof (atan_bound (y / x)).
        assert (Hq : 0 < y / x) by (unfold Rdiv; nra).
        pose proof (atan_pos _ Hq). lra.
    + destruct (Rlt_dec 0 y); [intros [= <-]; lra|].
      destruct (Rlt_dec y 0); intros [= <-]; lra.
Qed.



Lemma hue_of_phase (a : R) :
  - PI < a <= PI ->
  hue (Fin a) = Fin (hue_degrees a) /\ 0 <= hue_degrees a < 360.
Proof.
  intros Ha. pose proof PI_RGT_0 as Hpi.
  rewrite hue_fin. unfold hue_degrees.
  set (t := a / (2 * PI)).
  assert (Et : a = t * (2 * PI)) by (unfold t; field; lra).
  assert (Ht : - (1 / 2) < t <= 1 / 2) by (split; nra).
  replace (a * 180 / PI) with (t * 360) by (rewrite Et; field; lra).
  destruct (Rle_dec (- (2 * PI / 3)) a) as [Hge|Hlt].
  - assert (Ht' : - (1 / 3) <= t) by nra.
    rewrite (Int_part_small ((t * 360 + 120) / 360)) by lra.
    split; [f_equal; cbn; lra|lra].
  - assert (Ht' : t < - (1 / 3)) by nra.
    replace (Int_part ((t * 360 + 120) / 360)) with (-1)%Z
      by (apply Int_part_spec; cbn; lra).
    split; [f_equal; lra|lra].
Qed.



(** ** Clipping *)

(** X8. The two in-place assignments [v[v > 1] = 1.0; v[v < 0] = 0.0]
    clamp every finite channel into [0, 1], turn +infinity into 1 and
    -infinity into 0, and leave NaN as it is (so a NaN produced by a
    conversion survives into the result); applying them twice changes
    nothing more. *)
Theorem clipping_cases (v : float64) :
  clip_lo (clip_hi NaN) = NaN /\
  clip_lo (clip_hi (Inf false)) = Fin 1 /\
  clip_lo (clip_hi (Inf true)) = Fin 0 /\
  (forall r, clip_lo (clip_hi (Fin r)) = Fin (Rmax 0 (Rmin 1 r))) /\
  clip_lo (clip_hi (clip_lo (clip_hi v))) = clip_lo (clip_hi v) /\
  (v <> NaN <-> in01 (clip_lo (clip_hi v))).
Proof.
  assert (Hfin : forall r, clip_lo (clip_hi (Fin r)) = Fin (Rmax 0 (Rmin 1 r))).
  { intros r. unfold clip_hi, clip_lo, fgt. cbn.
    destruct (Rlt_dec 1 r) as [H|H]; cbn.
    - destruct (Rlt_dec 1 0); [lra|]. f_equal.
      rewrite Rmin_left by lra. rewrite Rmax_right by lra. reflexivity.
    - rewrite Rmin_right by lra.
      destruct (Rlt_dec r 0); f_equal;
        [rewrite Rmax_left by lra|rewrite Rmax_right by lra]; reflexivity. }
  assert (H1 : clip_lo (clip_hi (Inf false)) = Fin 1).
  { unfold clip_hi, clip_lo, fgt. cbn. destruct (Rlt_dec 1 0); [lra|reflexivity]. }
  assert (H0 : clip_lo (clip_hi (Inf true)) = Fin 0) by reflexivity.
  split; [reflexivity|]. split; [exact H1|]. split; [exact H0|].
  split; [exact Hfin|]. split.
  - destruct v as [r|[|]|].
    + rewrite !Hfin. f_equal.
      assert (0 <= Rmax 0 (Rmin 1 r) <= 1).
      { split; [apply Rmax_l|]. apply Rmax_lub; [lra|apply Rmin_l]. }
      rewrite (Rmin_right 1) by lra. now rewrite Rmax_right by lra.
    + rewrite H0, Hfin. f_equal. rewrite Rmin_right by lra.
      now rewrite Rmax_left by lra.
    + rewrite H1, Hfin. f_equal. rewrite Rmin_left by lra.
      now rewrite Rmax_right by lra.
    + reflexivity.
  - split.
    + apply clip01_in01.
    + intros [r [E _]] ->. discriminate.
Qed.

Lemma clipping_cases_witness :
  Fin 2 <> NaN /\ in01 (clip_lo (clip_hi (Fin 2))).
Proof.
  split; [discriminate|].
  destruct (clipping_cases (Fin 2)) as (_ & _ & _ & _ & _ & H).
  apply H. discriminate.
Defined.

(** ** The sampling grid *)

Lemma IZR_pos (n : Z) : (0 < n)%Z -> 0 < IZR n.
Proof. intros H. now apply IZR_lt. Qed.

Lemma np_linspace_cells (lo hi : R) (n : Z) :
  (0 < n)%Z ->
  np_linspace (lo + (hi - lo) / IZR n / 2) (hi - (hi - lo) / IZR n / 2) n
  = Ok (map (cell_centre lo hi n) (seq 0 (Z.to_nat n))).
Proof.
  intros Hn. pose proof (IZR_pos n Hn) as Hr.
  unfold np_linspace. destruct (Z.ltb_spec n 0); [lia|].
  f_equal. apply map_ext_in. intros i Hi. apply in_seq in Hi.
  unfold cell_centre. destruct (Z.eqb_spec n 1) as [->|Hne].
  - assert (i = 0%nat) by (cbn in Hi; lia). subst i. cbn. field.
  - assert (H2 : 2 <= IZR n) by (apply IZR_le; lia).
    rewrite minus_IZR. field. lra.
Qed.

Lemma flat_map_map {A B C : Type} (g : A -> B) (h : B -> list C) (l : list A) :
  flat_map h (map g l) = flat_map (fun x => h (g x)) l.
Proof. induction l as [|x l IH]; cbn; [reflexivity|now rewrite IH]. Qed.

Lemma _get_z_grid_cells (xmin xmax ymin ymax : R) (nx ny : Z) :
  (0 < nx)%Z -> (0 < ny)%Z ->
  _get_z_grid (xmin, xmax) (ymin, ymax) (nx, ny)
  = Ok (mkArr [Z.to_nat ny; Z.to_nat nx]
          (flat_map (fun j =>
                       map (fun i => mkC (Fin (cell_centre xmin xmax nx i))
                                         (Fin (cell_centre ymin ymax ny j)))
                           (seq 0 (Z.to_nat nx)))
                    (seq 0 (Z.to_nat ny)))).
Proof.
  intros Hx Hy. unfold _get_z_grid, py_div.
  destruct (Z.eqb_spec nx 0); [lia|]. cbn [bind].
  rewrite np_linspace_cells by assumption. cbn [bind].
  destruct (Z.eqb_spec ny 0); [lia|]. cbn [bind].
  rewrite np_linspace_cells by assumption. cbn [bind].
  rewrite !length_map, !length_seq, flat_map_map. do 2 f_equal.
  apply flat_map_ext. intros j. rewrite map_map.
  apply map_ext. intros i. apply x_plus_1j_y_fin.
Qed.

Lemma cell_centre_inside (lo hi : R) (n : Z) (i : nat) :
  lo < hi -> (i < Z.to_nat n)%nat -> lo < cell_centre lo hi n i < hi.
Proof.
  intros Hlh Hi. unfold cell_centre.
  assert (Hn : (0 < n)%Z) by lia. pose proof (IZR_pos n Hn) as Hr.
  assert (Hi' : INR i + 1 <= IZR n).
  { rewrite INR_IZR_INZ, <- plus_IZR. apply IZR_le. lia. }
  pose proof (pos_INR i) as Hi0.
  set (h := (hi - lo) / IZR n).
  assert (Hh : h * IZR n = hi - lo) by (unfold h; field; lra).
  assert (Hh0 : 0 < h).
  { unfold h, Rdiv. apply Rmult_lt_0_compat; [lra|now apply Rinv_0_lt_compat]. }
  split; nra.
Qed.



Section GridOutcomes.
Variables (xminmax yminmax : R * R) (nx ny : Z).

Lemma _get_z_grid_nx_zero :
  nx = 0%Z -> _get_z_grid xminmax yminmax (nx, ny) = Raise ZeroDivisionError.
Proof.
  destruct xminmax as [xmin xmax], yminmax as [ymin ymax].
  intros ->. reflexivity.
Qed.

Lemma _get_z_grid_nx_negative :
  (nx < 0)%Z -> _get_z_grid xminmax yminmax (nx, ny) = Raise ValueError.
Proof.
  destruct xminmax as [xmin xmax], yminmax as [ymin ymax].
  intros H. unfold _get_z_grid, py_div, np_linspace.
  destruct (Z.eqb_spec nx 0); [lia|]. cbn [bind].
  destruct (Z.ltb_spec nx 0); [reflexivity|lia].
Qed.

Lemma _get_z_grid_ny_zero :
  (0 < nx)%Z -> ny = 0%Z ->
  _get_z_grid xminmax yminmax (nx, ny) = Raise ZeroDivisionError.
Proof.
  destruct xminmax as [xmin xmax], yminmax as [ymin ymax].
  intros H ->. unfold _get_z_grid, py_div.
  destruct (Z.eqb_spec nx 0); [lia|]. cbn [bind].
  now rewrite np_linspace_cells by assumption.
Qed.

Lemma _get_z_grid_ny_negative :
  (0 < nx)%Z -> (ny < 0)%Z ->
  _get_z_grid xminmax yminmax (nx, ny) = Raise ValueError.
Proof.
  destruct xminmax as [xmin xmax], yminmax as [ymin ymax].
  intros H H'. unfold _get_z_grid, py_div.
  destruct (Z.eqb_spec nx 0); [lia|]. cbn [bind].
  rewrite np_linspace_cells by assumption. cbn [bind].
  destruct (Z.eqb_spec ny 0); [lia|]. cbn [bind]. unfold np_linspace.
  destruct (Z.ltb_spec ny 0); [reflexivity|lia].
Qed.

Lemma _get_z_grid_ok_inv (Z : ndarray complex) :
  _get_z_grid xminmax yminmax (nx, ny) = Ok Z -> (0 < nx)%Z /\ (0 < ny)%Z.
Proof.
  intros HZ.
  destruct (Z.lt_trichotomy nx 0) as [H|[H|H]];
    [rewrite _get_z_grid_nx_negative in HZ by assumption; discriminate
    |rewrite _get_z_grid_nx_zero in HZ by assumption; discriminate|].
  destruct (Z.lt_trichotomy ny 0) as [H'|[H'|H']];
    [rewrite _get_z_grid_ny_negative in HZ by assumption; discriminate
    |rewrite _get_z_grid_ny_zero in HZ by assumption; discriminate|].
  split; assumption.
Qed.

End GridOutcomes.

(** X10. [_get_z_grid] returns exactly when both counts are positive.
    A count nx = 0 raises ZeroDivisionError (in [hx]), a negative nx
    raises ValueError (in [np.linspace]); ny is looked at only when nx
    is positive, with the same two failures.  The bounds are not
    checked here. *)
Theorem _get_z_grid_failures (xminmax yminmax : R * R) (nx ny : Z) :
  (nx = 0%Z -> _get_z_grid xminmax yminmax (nx, ny) = Raise ZeroDivisionError) /\
  ((nx < 0)%Z -> _get_z_grid xminmax yminmax (nx, ny) = Raise ValueError) /\
  ((0 < nx)%Z -> ny = 0%Z ->
   _get_z_grid xminmax yminmax (nx, ny) = Raise ZeroDivisionError) /\
  ((0 < nx)%Z -> (ny < 0)%Z ->
   _get_z_grid xminmax yminmax (nx, ny) = Raise ValueError) /\
  ((exists Z, _get_z_grid xminmax yminmax (nx, ny) = Ok Z)
   <-> (0 < nx)%Z /\ (0 < ny)%Z).
Proof.
  split; [apply _get_z_grid_nx_zero|]. split; [apply _get_z_grid_nx_negative|].
  split; [apply _get_z_grid_ny_zero|]. split; [apply _get_z_grid_ny_negative|].
  split.
  - intros [Z HZ]. now apply (_get_z_grid_ok_inv xminmax yminmax nx ny Z).
  - intros [Hx Hy]. now apply _get_z_grid_ok.
Qed.

Lemma _get_z_grid_failures_witness :
  0%Z = 0%Z /\ _get_z_grid (0, 1) (0, 1) (0, 5)%Z = Raise ZeroDivisionError.
Proof.
  split; [reflexivity|].
  destruct (_get_z_grid_failures (0, 1) (0, 1) 0 5) as (H & _).
  now apply H.
Defined.

(** ** When [plot] returns and how it fails *)

Lemma get_srgb1_ok_inv {cio : Colorio} (z : ndarray complex) (alpha : R)
    (colorspace : string) (out : ndarray float64) :
  get_srgb1 z alpha colorspace = Ok out ->
  0 <= alpha /\ exists sp, selects colorspace sp.
Proof.
  intros H. destruct (Rlt_dec alpha 0) as [Hlt|Hge].
  - rewrite get_srgb1_alpha_neg in H by assumption. discriminate.
  - assert (Ha : 0 <= alpha) by lra. split; [exact Ha|].
    destruct (selects_dec colorspace) as [[sp Hs]|Hn]; [now exists sp|].
    rewrite get_srgb1_unsupported in H by assumption. discriminate.
Qed.

Section PlotOutcome.
Context {cio : Colorio} {plt : Pyplot}.
Variable f : complex -> complex.
Variables (xmin xmax ymin ymax : R) (n : n_arg) (alpha : R).
Variables (colorspace : string) (contour_abs contour_arg : bool).

Let plot_here :=
  plot f (xmin, xmax) (ymin, ymax) n alpha colorspace contour_abs contour_arg.

(** [plot] past its two bound assertions and the reading of [n]. *)
Lemma plot_after_checks (nx ny : Z) :
  xmin < xmax -> ymin < ymax -> counts n = Some (nx, ny) ->
  plot_here
  = (Z <- _get_z_grid (xmin, xmax) (ymin, ymax) (nx, ny) ;;
     img <- get_srgb1 (amap f Z) alpha colorspace ;;
     Ok ([imshow img (np_min (amap real Z), np_max (amap real Z),
                      np_min (amap imag Z), np_max (amap imag Z))]
         ++ (if contour_abs then
               [contour (amap real Z) (amap imag Z) (amap np_abs (amap f Z))
                        [Fin 0.1; Fin 100.0] "#a0a0a050"
                        (contour_allsegs (amap real Z) (amap imag Z)
                           (amap np_abs (amap f Z)) [Fin 0.1; Fin 100.0])]
             else [])
         ++ (if contour_arg then
               [contour (amap real Z) (amap imag Z) (amap np_angle (amap f Z))
                        [Fin (-0.5 * PI); Fin 0.0; Fin (0.5 * PI)] "#a0a0a050"
                        (mask_allsegs f [Fin (-0.5 * PI); Fin 0.0; Fin (0.5 * PI)]
                           (contour_allsegs (amap real Z) (amap imag Z)
                              (amap np_angle (amap f Z))
                              [Fin (-0.5 * PI); Fin 0.0; Fin (0.5 * PI)]))]
             else []))).
Proof.
  intros Hx Hy Hn. unfold plot_here, plot.
  destruct (Rlt_dec xmin xmax); [|contradiction].
  destruct (Rlt_dec ymin ymax); [|contradiction]. cbn [assert bind].
  assert (E : match n with
              | n_int k => Ok (k, k)
              | n_tuple t =>
                  _ <- assert (List.length t =? 2)%nat "" ;;
                  Ok (nth 0 t 0%Z, nth 1 t 0%Z)
              | n_other => Raise (AssertionError "")
              end = Ok (nx, ny)).
  { destruct n as [k|t|]; cbn in Hn; [now injection Hn as <- <-| |discriminate].
    destruct t as [|a [|b [|c t]]]; try discriminate.
    now injection Hn as <- <-. }
  rewrite E. cbn [bind].
  destruct (_get_z_grid (xmin, xmax) (ymin, ymax) (nx, ny)) as [Z|e];
    [|reflexivity]. cbn [bind].
  destruct (get_srgb1 (amap f Z) alpha colorspace) as [img|e]; [|reflexivity].
  cbn [bind]. destruct contour_abs, contour_arg; reflexivity.
Qed.

Lemma plot_bad_n :
  xmin < xmax -> ymin < ymax -> counts n = None ->
  plot_here = Raise (AssertionError "").
Proof.
  intros Hx Hy Hn. unfold plot_here, plot.
  destruct (Rlt_dec xmin xmax); [|contradiction].
  destruct (Rlt_dec ymin ymax); [|contradiction]. cbn [assert bind].
  destruct n as [k|t|]; cbn in Hn; [discriminate| |reflexivity].
  destruct t as [|a [|b [|c t]]]; try discriminate; reflexivity.
Qed.

Lemma plot_bad_bounds :
  ~ (xmin < xmax /\ ymin < ymax) -> plot_here = Raise (AssertionError "").
Proof.
  intros H. unfold plot_here, plot.
  destruct (Rlt_dec xmin xmax); [|reflexivity].
  destruct (Rlt_dec ymin ymax); [|reflexivity]. exfalso. auto.
Qed.

Lemma plot_ok_inv (calls : list plt_call) :
  plot_here = Ok calls ->
  xmin < xmax /\ ymin < ymax /\
  (exists nx ny, counts n = Some (nx, ny) /\ (0 < nx)%Z /\ (0 < ny)%Z) /\
  0 <= alpha /\ exists sp, selects colorspace sp.
Proof.
  intros H.
  destruct (Rlt_dec xmin xmax) as [Hx|Hx];
    [|rewrite plot_bad_bounds in H by tauto; discriminate].
  destruct (Rlt_dec ymin ymax) as [Hy|Hy];
    [|rewrite plot_bad_bounds in H by tauto; discriminate].
  destruct (counts n) as [[nx ny]|] eqn:Hn;
    [|rewrite plot_bad_n in H by assumption; discriminate].
  rewrite (plot_after_checks nx ny Hx Hy Hn) in H.
  apply bind_ok in H as (Z & HZ & H). apply bind_ok in H as (img & Himg & _).
  destruct (_get_z_grid_ok_inv _ _ _ _ _ HZ) as [Hnx Hny].
  destruct (get_srgb1_ok_inv _ _ _ _ Himg) as [Ha Hs].
  repeat split; try assumption. now exists nx, ny.
Qed.

Lemma plot_ok_intro :
  xmin < xmax -> ymin < ymax ->
  (exists nx ny, counts n = Some (nx, ny) /\ (0 < nx)%Z /\ (0 < ny)%Z) ->
  0 <= alpha -> (exists sp, selects colorspace sp) ->
  exists calls, plot_here = Ok calls.
Proof.
  intros Hx Hy (nx & ny & Hn & Hnx & Hny) Ha (sp & Hs).
  rewrite (plot_after_checks nx ny Hx Hy Hn).
  rewrite _get_z_grid_cells by assumption. cbn [bind].
  rewrite (get_srgb1_pixels _ alpha colorspace sp Ha Hs). cbn [bind]. eauto.
Qed.


(** X12. The failures of [plot], in the order the code meets them:
    an improper rectangle fails the bound assertions whatever the other
    arguments; then an [n] that is neither an int nor a pair fails its
    assertion; then a zero or negative count fails in the grid with
    ZeroDivisionError or ValueError, even when alpha or the colour
    space are wrong too; only then a negative alpha and, last, an
    unknown colour space are reported. *)
Theorem plot_failure_order :
  (~ (xmin < xmax /\ ymin < ymax) -> plot_here = Raise (AssertionError "")) /\
  (xmin < xmax -> ymin < ymax ->
   (counts n = None -> plot_here = Raise (AssertionError "")) /\
   (forall nx ny, counts n = Some (nx, ny) ->
      (nx = 0%Z -> plot_here = Raise ZeroDivisionError) /\
      ((nx < 0)%Z -> plot_here = Raise ValueError) /\
      ((0 < nx)%Z -> ny = 0%Z -> plot_here = Raise ZeroDivisionError) /\
      ((0 < nx)%Z -> (ny < 0)%Z -> plot_here = Raise ValueError) /\
      ((0 < nx)%Z -> (0 < ny)%Z ->
       (alpha < 0 -> plot_here = Raise InvalidParameter) /\
       (0 <= alpha -> (forall sp, ~ selects colorspace sp) ->
        plot_here = Raise (UnsupportedColorSpace colorspace))))).
Proof.
  split; [apply plot_bad_bounds|]. intros Hx Hy.
  split; [now apply plot_bad_n|]. intros nx ny Hn.
  rewrite (plot_after_checks nx ny Hx Hy Hn).
  split; [intros H; now rewrite _get_z_grid_nx_zero|].
  split; [intros H; now rewrite _get_z_grid_nx_negative|].
  split; [intros H H'; now rewrite _get_z_grid_ny_zero|].
  split; [intros H H'; now rewrite _get_z_grid_ny_negative|].
  intros Hnx Hny. rewrite _get_z_grid_cells by assumption. cbn [bind]. split.
  - intros Ha. now rewrite get_srgb1_alpha_neg.
  - intros Ha Hs. now rewrite get_srgb1_unsupported.
Qed.

End PlotOutcome.


Lemma plot_failure_order_witness :
  -2 < 2 /\ -1 < 1 /\
  plot (cio := gray_colorio) (plt := fixed_pyplot []) (fun c => c)
       (-2, 2) (-1, 1) (n_int 0) (-1) "no such space" false false
  = Raise ZeroDivisionError.
Proof.
  split; [lra|]. split; [lra|].
  destruct (plot_failure_order (cio := gray_colorio) (plt := fixed_pyplot [])
              (fun c => c) (-2) 2 (-1) 1 (n_int 0) (-1) "no such space"
              false false) as (_ & H).
  destruct (H ltac:(lra) ltac:(lra)) as (_ & H').
  destruct (H' 0%Z 0%Z eq_refl) as (H0 & _). now apply H0.
Defined.

(** ** The extent handed to [imshow] *)

Lemma fmin_fin (a b : R) : fmin (Fin a) (Fin b) = Fin (Rmin a b).
Proof.
  unfold fmin. cbn. destruct (Rlt_dec b a).
  - now rewrite Rmin_right by lra.
  - now rewrite Rmin_left by lra.
Qed.

Lemma fmax_fin (a b : R) : fmax (Fin a) (Fin b) = Fin (Rmax a b).
Proof.
  unfold fmax. cbn. destruct (Rlt_dec a b).
  - now rewrite Rmax_right by lra.
  - now rewrite Rmax_left by lra.
Qed.

Lemma fold_fmin_fin (t : list R) (m : R) :
  fold_left fmin (map Fin t) (Fin m) = Fin (fold_left Rmin t m).
Proof.
  revert m. induction t as [|a t IH]; intros m; cbn [fold_left map];
    [reflexivity|].
  now rewrite fmin_fin, IH.
Qed.

Lemma fold_fmax_fin (t : list R) (m : R) :
  fold_left fmax (map Fin t) (Fin m) = Fin (fold_left Rmax t m).
Proof.
  revert m. induction t as [|a t IH]; intros m; cbn [fold_left map];
    [reflexivity|].
  now rewrite fmax_fin, IH.
Qed.

Lemma fold_Rmin_least (t : list R) (m lo : R) :
  In lo (m :: t) -> (forall r, In r (m :: t) -> lo <= r) ->
  fold_left Rmin t m = lo.
Proof.
  revert m. induction t as [|a t IH]; intros m Hin Hle; cbn.
  - destruct Hin as [->|[]]. reflexivity.
  - apply IH.
    + pose proof (Hle m (or_introl eq_refl)) as Hm.
      pose proof (Hle a (or_intror (or_introl eq_refl))) as Ha.
      destruct Hin as [->|[->|Hin]].
      * left. now rewrite Rmin_left.
      * left. now rewrite Rmin_right.
      * right. exact Hin.
    + intros r [<-|Hr].
      * apply Rmin_glb; apply Hle; cbn; auto.
      * apply Hle. cbn. auto.
Qed.

Lemma fold_Rmax_greatest (t : list R) (m hi : R) :
  In hi (m :: t) -> (forall r, In r (m :: t) -> r <= hi) ->
  fold_left Rmax t m = hi.
Proof.
  revert m. induction t as [|a t IH]; intros m Hin Hle; cbn.
  - destruct Hin as [->|[]]. reflexivity.
  - apply IH.
    + pose proof (Hle m (or_introl eq_refl)) as Hm.
      pose proof (Hle a (or_intror (or_introl eq_refl))) as Ha.
      destruct Hin as [->|[->|Hin]].
      * left. now rewrite Rmax_left.
      * left. now rewrite Rmax_right.
      * right. exact Hin.
    + intros r [<-|Hr].
      * apply Rmax_lub; apply Hle; cbn; auto.
      * apply Hle. cbn. auto.
Qed.

Lemma np_min_least (sh : list nat) (rs : list R) (lo : R) :
  In lo rs -> (forall r, In r rs -> lo <= r) ->
  np_min (mkArr sh (map Fin rs)) = Fin lo.
Proof.
  intros Hin Hle. destruct rs as [|m t]; [contradiction|].
  unfold np_min. cbn [data map]. rewrite fold_fmin_fin. f_equal.
  now apply fold_Rmin_least.
Qed.

Lemma np_max_greatest (sh : list nat) (rs : list R) (hi : R) :
  In hi rs -> (forall r, In r rs -> r <= hi) ->
  np_max (mkArr sh (map Fin rs)) = Fin hi.
Proof.
  intros Hin Hle. destruct rs as [|m t]; [contradiction|].
  unfold np_max. cbn [data map]. rewrite fold_fmax_fin. f_equal.
  now apply fold_Rmax_greatest.
Qed.

Lemma map_flat_map_map {A B C D : Type} (g : C -> D) (h : A -> B -> C)
    (cols : list B) (rows : list A) :
  map g (flat_map (fun j => map (h j) cols) rows)
  = flat_map (fun j => map (fun i => g (h j i)) cols) rows.
Proof.
  induction rows as [|j rows IH]; cbn; [reflexivity|].
  now rewrite map_app, IH, map_map.
Qed.

Lemma cell_centre_mono (lo hi : R) (n : Z) (i k : nat) :
  lo < hi -> (0 < n)%Z -> (i <= k)%nat ->
  cell_centre lo hi n i <= cell_centre lo hi n k.
Proof.
  intros Hlh Hn Hik. unfold cell_centre.
  pose proof (IZR_pos n Hn) as Hr. pose proof (le_INR i k Hik) as Hi.
  assert (Hh0 : 0 < (hi - lo) / IZR n).
  { unfold Rdiv. apply Rmult_lt_0_compat; [lra|now apply Rinv_0_lt_compat]. }
  nra.
Qed.

Lemma cell_centre_first (lo hi : R) (n : Z) :
  cell_centre lo hi n 0 = lo + (hi - lo) / IZR n / 2.
Proof. unfold cell_centre. cbn. lra. Qed.

Lemma cell_centre_last (lo hi : R) (n : Z) :
  (0 < n)%Z ->
  cell_centre lo hi n (Z.to_nat n - 1) = hi - (hi - lo) / IZR n / 2.
Proof.
  intros Hn. pose proof (IZR_pos n Hn) as Hr. unfold cell_centre.
  rewrite INR_IZR_INZ.
  replace (Z.of_nat (Z.to_nat n - 1)) with (n - 1)%Z by lia.
  rewrite minus_IZR. field. lra.
Qed.

(** The real parts and the imaginary parts of the grid. *)
Lemma grid_extent (xmin xmax ymin ymax : R) (nx ny : Z) (sh : list nat) :
  xmin < xmax -> ymin < ymax -> (0 < nx)%Z -> (0 < ny)%Z ->
  let Z := mkArr sh
             (flat_map (fun j =>
                          map (fun i => mkC (Fin (cell_centre xmin xmax nx i))
                                            (Fin (cell_centre ymin ymax ny j)))
                              (seq 0 (Z.to_nat nx)))
                       (seq 0 (Z.to_nat ny))) in
  np_min (amap real Z) = Fin (xmin + (xmax - xmin) / IZR nx / 2) /\
  np_max (amap real Z) = Fin (xmax - (xmax - xmin) / IZR nx / 2) /\
  np_min (amap imag Z) = Fin (ymin + (ymax - ymin) / IZR ny / 2) /\
  np_max (amap imag Z) = Fin (ymax - (ymax - ymin) / IZR ny / 2).
Proof.
  intros Hx Hy Hnx Hny Z. subst Z. unfold amap. cbn [shape data].
  rewrite (map_flat_map_map real
             (fun j i => mkC (Fin (cell_centre xmin xmax nx i))
                             (Fin (cell_centre ymin ymax ny j)))).
  rewrite (map_flat_map_map imag
             (fun j i => mkC (Fin (cell_centre xmin xmax nx i))
                             (Fin (cell_centre ymin ymax ny j)))).
  cbn [real imag].
  rewrite <- (map_flat_map_map Fin (fun (_ : nat) i => cell_centre xmin xmax nx i)).
  rewrite <- (map_flat_map_map Fin (fun j (_ : nat) => cell_centre ymin ymax ny j)).
  assert (Hin : forall (g : nat -> nat -> R) i j,
            (i < Z.to_nat nx)%nat -> (j < Z.to_nat ny)%nat ->
            In (g j i)
               (flat_map (fun j0 => map (g j0) (seq 0 (Z.to_nat nx)))
                         (seq 0 (Z.to_nat ny)))).
  { intros g i j Hi Hj. apply in_flat_map. exists j.
    split; [apply in_seq; lia|]. apply in_map. apply in_seq. lia. }
  assert (Hall : forall (g : nat -> nat -> R) r,
            In r (flat_map (fun j0 => map (g j0) (seq 0 (Z.to_nat nx)))
                           (seq 0 (Z.to_nat ny))) ->
            exists i j, (i < Z.to_nat nx)%nat /\ (j < Z.to_nat ny)%nat /\
                        r = g j i).
  { intros g r Hr. apply in_flat_map in Hr as (j & Hj & Hr).
    apply in_map_iff in Hr as (i & <- & Hi). apply in_seq in Hj, Hi.
    exists i, j. repeat split; lia. }
  rewrite <- cell_centre_first, <- (cell_centre_last xmin xmax nx Hnx).
  rewrite <- (cell_centre_first ymin ymax ny), <- (cell_centre_last ymin ymax ny Hny).
  split; [|split; [|split]].
  - apply np_min_least.
    + apply (Hin (fun _ i => cell_centre xmin xmax nx i) 0%nat 0%nat); lia.
    + intros r Hr. apply Hall in Hr as (i & j & Hi & Hj & ->).
      apply cell_centre_mono; [assumption|assumption|lia].
  - apply np_max_greatest.
    + apply (Hin (fun _ i => cell_centre xmin xmax nx i)
                 (Z.to_nat nx - 1)%nat 0%nat); lia.
    + intros r Hr. apply Hall in Hr as (i & j & Hi & Hj & ->).
      apply cell_centre_mono; [assumption|assumption|lia].
  - apply np_min_least.
    + apply (Hin (fun j _ => cell_centre ymin ymax ny j) 0%nat 0%nat); lia.
    + intros r Hr. apply Hall in Hr as (i & j & Hi & Hj & ->).
      apply cell_centre_mono; [assumption|assumption|lia].
  - apply np_max_greatest.
    + apply (Hin (fun j _ => cell_centre ymin ymax ny j)
                 0%nat (Z.to_nat ny - 1)%nat); lia.
    + intros r Hr. apply Hall in Hr as (i & j & Hi & Hj & ->).
      apply cell_centre_mono; [assumption|assumption|lia].
Qed.

(** X13. Whenever [plot] returns, its first call is [imshow] and the
    extent it passes is not the requested rectangle but the box of the
    sample points, half a cell inside on every side:
    (xmin + hx/2, xmax - hx/2, ymin + hy/2, ymax - hy/2) with
    hx = (xmax - xmin)/nx and hy = (ymax - ymin)/ny. *)
Theorem plot_imshow_extent {cio : Colorio} {plt : Pyplot}
    (f : complex -> complex) (xmin xmax ymin ymax : R) (n : n_arg) (alpha : R)
    (colorspace : string) (contour_abs contour_arg : bool)
    (calls : list plt_call) (nx ny : Z) :
  plot f (xmin, xmax) (ymin, ymax) n alpha colorspace contour_abs contour_arg
  = Ok calls ->
  counts n = Some (nx, ny) ->
  exists img rest,
    calls
    = imshow img (Fin (xmin + (xmax - xmin) / IZR nx / 2),
                  Fin (xmax - (xmax - xmin) / IZR nx / 2),
                  Fin (ymin + (ymax - ymin) / IZR ny / 2),
                  Fin (ymax - (ymax - ymin) / IZR ny / 2)) :: rest /\
    List.length rest
    = ((if contour_abs then 1 else 0) + (if contour_arg then 1 else 0))%nat.
Proof.
  intros H Hn.
  destruct (plot_ok_inv f xmin xmax ymin ymax n alpha colorspace
              contour_abs contour_arg calls H)
    as (Hx & Hy & (nx' & ny' & Hn' & Hnx & Hny) & _).
  rewrite Hn in Hn'. injection Hn' as <- <-.
  rewrite (plot_after_checks f xmin xmax ymin ymax n alpha colorspace
             contour_abs contour_arg nx ny Hx Hy Hn) in H.
  rewrite _get_z_grid_cells in H by assumption. cbn [bind] in H.
  apply bind_ok in H as (img & _ & H). injection H as <-.
  destruct (grid_extent xmin xmax ymin ymax nx ny
              [Z.to_nat ny; Z.to_nat nx] Hx Hy Hnx Hny) as (E1 & E2 & E3 & E4).
  cbv zeta in E1, E2, E3, E4. rewrite E1, E2, E3, E4.
  eexists img, _. split; [reflexivity|].
  destruct contour_abs, contour_arg; reflexivity.
Qed.

Lemma plot_imshow_extent_witness :
  exists calls img rest,
    plot (cio := gray_colorio) (plt := fixed_pyplot []) (fun c => c)
         (-2, 2) (-1, 1) (n_tuple [4; 2]%Z) 1 "hsl" false false = Ok calls /\
    calls
    = imshow img (Fin (-2 + (2 - -2) / IZR 4 / 2), Fin (2 - (2 - -2) / IZR 4 / 2),
                  Fin (-1 + (1 - -1) / IZR 2 / 2), Fin (1 - (1 - -1) / IZR 2 / 2))
      :: rest.
Proof.
  destruct (plot_ok_intro (cio := gray_colorio) (plt := fixed_pyplot [])
              (fun c => c) (-2) 2 (-1) 1 (n_tuple [4; 2]%Z) 1 "hsl"
              false false) as [calls H];
    [lra|lra|exists 4%Z, 2%Z; repeat split; lia|lra|exists HSL; reflexivity|].
  destruct (plot_imshow_extent (cio := gray_colorio) (plt := fixed_pyplot [])
              (fun c => c) (-2) 2 (-1) 1 (n_tuple [4; 2]%Z) 1 "hsl" false false
              calls 4 2 H eq_refl) as (img & rest & E & _).
  exists calls, img, rest. split; [exact H|exact E].
Defined.

(** ** The contour masker, point by point *)

Section MaskerFacts.
Variable f : complex -> complex.

Lemma is_false_fin (a L : R) (p : point) :
  np_angle (f (x_plus_1j_y (fst p) (snd p))) = Fin a ->
  is_false f (Fin L) p = true
  <-> Rabs (a - PI) < Rabs (a - L) \/ Rabs (a + PI) < Rabs (a - L).
Proof.
  intros Ha. unfold is_false. rewrite Ha. cbn [fabs fsub fadd fopp].
  rewrite orb_true_iff, !flt_fin. reflexivity.
Qed.


(** X15. The masker keeps every point whose recomputed phase is NaN
    (where [f] is undefined) and every point whose recomputed phase
    equals the requested level. *)
Theorem mask_keeps (level : float64) (L : R) (p : point) :
  (np_angle (f (x_plus_1j_y (fst p) (snd p))) = NaN ->
   is_false f level p = false /\ mask_segment f level [p] = [p]) /\
  (np_angle (f (x_plus_1j_y (fst p) (snd p))) = Fin L ->
   is_false f (Fin L) p = false /\ mask_segment f (Fin L) [p] = [p]).
Proof.
  split; intros H.
  - assert (E : is_false f level p = false)
      by (unfold is_false; rewrite H; reflexivity).
    split; [exact E|]. unfold mask_segment. cbn. now rewrite E.
  - assert (E : is_false f (Fin L) p = false).
    { destruct (is_false f (Fin L) p) eqn:Hb; [|reflexivity].
      apply (is_false_fin L L p H) in Hb.
      replace (L - L) with 0 in Hb by ring. rewrite Rabs_R0 in Hb.
      pose proof (Rabs_pos (L - PI)). pose proof (Rabs_pos (L + PI)).
      destruct Hb; lra. }
    split; [exact E|]. unfold mask_segment. cbn. now rewrite E.
Qed.

Lemma mask_segment_twice (level : float64) (s : segment) :
  mask_segment f level (mask_segment f level s) = mask_segment f level s.
Proof.
  unfold mask_segment. rewrite map_map. apply map_ext. intros p.
  destruct (is_false f level p) eqn:E; [|now rewrite E].
  now destruct (is_false f level nan_point).
Qed.

(** X16. Masking is idempotent: running the loop of lines 238-246 a
    second time over the masked segments changes nothing, whatever [f]
    returns at the NaN points. *)
Theorem mask_allsegs_idempotent (levels : list float64)
    (allsegs : list (list segment)) :
  mask_allsegs f levels (mask_allsegs f levels allsegs)
  = mask_allsegs f levels allsegs.
Proof.
  revert allsegs. induction levels as [|level levels IH]; intros allsegs.
  - now destruct allsegs.
  - destruct allsegs as [|allseg allsegs]; [reflexivity|]. cbn. f_equal.
    + rewrite map_map. apply map_ext. intros s. apply mask_segment_twice.
    + apply IH.
Qed.

(** X17. The loop pairs levels and segment lists with [zip]: it keeps
    the number of segment lists, of segments per list and of points per
    segment, and leaves every list beyond the last level untouched. *)
Theorem mask_allsegs_structure (levels : list float64)
    (allsegs : list (list segment)) :
  List.length (mask_allsegs f levels allsegs) = List.length allsegs /\
  Forall2 (fun allseg' allseg =>
             Forall2 (fun s' s => List.length s' = List.length s) allseg' allseg)
          (mask_allsegs f levels allsegs) allsegs /\
  (forall k, (List.length levels <= k)%nat ->
     nth_error (mask_allsegs f levels allsegs) k = nth_error allsegs k).
Proof.
  split; [apply mask_allsegs_length|]. split.
  - revert allsegs. induction levels as [|level levels IH]; intros allsegs.
    + assert (E : mask_allsegs f [] allsegs = allsegs) by now destruct allsegs.
      rewrite E. clear E.
      induction allsegs as [|a l IHl]; constructor; [|exact IHl].
      induction a; constructor; auto.
    + destruct allsegs as [|allseg allsegs]; [constructor|]. cbn.
      constructor; [|apply IH].
      induction allseg as [|s l IHl]; cbn; constructor; [|exact IHl].
      unfold mask_segment. apply length_map.
  - revert allsegs. induction levels as [|level levels IH]; intros allsegs k Hk.
    + now destruct allsegs.
    + destruct allsegs as [|allseg allsegs]; [reflexivity|].
      destruct k as [|k]; [cbn in Hk; lia|]. cbn. apply IH. cbn in Hk. lia.
Qed.

End MaskerFacts.


Lemma mask_keeps_witness :
  np_angle (x_plus_1j_y (Fin 1) (Fin 0)) = Fin 0 /\
  is_false (fun c => c) (Fin 0) (Fin 1, Fin 0) = false.
Proof.
  assert (H : np_angle (x_plus_1j_y (Fin 1) (Fin 0)) = Fin 0)
    by (rewrite x_plus_1j_y_fin; apply angle_of_one).
  split; [exact H|].
  destruct (mask_keeps (fun c => c) NaN 0 (Fin 1, Fin 0)) as [_ K].
  now apply K.
Defined.

Lemma mask_allsegs_structure_witness :
  (List.length [Fin 0] <= 1)%nat /\
  nth_error (mask_allsegs (fun c => c) [Fin 0]
               [[[(Fin (-1), Fin 0)]]; [[(Fin (-1), Fin 0)]]]) 1
  = Some [[(Fin (-1), Fin 0)]].
Proof.
  split; [cbn; lia|].
  destruct (mask_allsegs_structure (fun c => c) [Fin 0]
              [[[(Fin (-1), Fin 0)]]; [[(Fin (-1), Fin 0)]]]) as (_ & _ & H).
  rewrite H by (cbn; lia). reflexivity.
Defined.

(** ** [get_srgb1], sample by sample *)

Lemma map_const_length {A B C : Type} (b : C) (l : list A) (l' : list B) :
  List.length l = List.length l' -> map (fun _ => b) l = map (fun _ => b) l'.
Proof.
  revert l'. induction l as [|x l IH]; intros [|y l'] H; try discriminate;
    [reflexivity|].
  cbn. f_equal. apply IH. now injection H.
Qed.

(** X18. alpha = 0 passes the assertion of line 10 and erases the
    magnitudes: every sample, whatever its magnitude (0, infinite and
    NaN included), is scaled to 0.5, so two arrays of one shape whose
    samples have the same phases give the same result. *)
Theorem alpha_zero_erases_magnitude {cio : Colorio} (z z' : ndarray complex)
    (colorspace : string) :
  shape z = shape z' ->
  map (fun c => arctan2 (imag c) (real c)) (data z)
  = map (fun c => arctan2 (imag c) (real c)) (data z') ->
  amap (fun c => abs_scaling 0 (np_abs c)) z = amap (fun _ => Fin 0.5) z /\
  get_srgb1 z 0 colorspace = get_srgb1 z' 0 colorspace.
Proof.
  intros Hsh Hang.
  assert (Hs : forall w, amap (fun c => abs_scaling 0 (np_abs c)) w
                         = amap (fun _ => Fin 0.5) w).
  { intros w. apply amap_ext. intros c. apply abs_scaling_alpha0. }
  split; [apply Hs|].
  unfold get_srgb1. rewrite !Hs.
  assert (E1 : amap (fun c => arctan2 (imag c) (real c)) z
               = amap (fun c => arctan2 (imag c) (real c)) z').
  { unfold amap. now rewrite Hsh, Hang. }
  assert (E2 : amap (fun _ : complex => Fin 0.5) z = amap (fun _ => Fin 0.5) z').
  { unfold amap. rewrite Hsh. f_equal. apply map_const_length.
    apply (f_equal (@List.length float64)) in Hang.
    now rewrite !length_map in Hang. }
  now rewrite E1, E2.
Qed.

Lemma alpha_zero_erases_magnitude_witness :
  get_srgb1 (cio := gray_colorio) (mkArr [1%nat] [mkC (Fin 1) (Fin 0)]) 0 "hsl"
  = get_srgb1 (cio := gray_colorio) (mkArr [1%nat] [mkC (Inf false) (Fin 0)]) 0 "hsl".
Proof.
  destruct (alpha_zero_erases_magnitude (cio := gray_colorio)
              (mkArr [1%nat] [mkC (Fin 1) (Fin 0)])
              (mkArr [1%nat] [mkC (Inf false) (Fin 0)]) "hsl") as [_ H].
  - reflexivity.
  - cbn [data map imag real]. f_equal. apply angle_of_one.
  - exact H.
Defined.

Lemma nth_error_flat_map3 {A B : Type} (f0 f1 f2 : A -> B) (l : list A)
    (i : nat) (v : A) :
  nth_error l i = Some v ->
  nth_error (flat_map (fun x => [f0 x; f1 x; f2 x]) l) (3 * i) = Some (f0 v) /\
  nth_error (flat_map (fun x => [f0 x; f1 x; f2 x]) l) (3 * i + 1) = Some (f1 v) /\
  nth_error (flat_map (fun x => [f0 x; f1 x; f2 x]) l) (3 * i + 2) = Some (f2 v).
Proof.
  revert i. induction l as [|x l IH]; intros i H; [destruct i; discriminate|].
  destruct i as [|i].
  - injection H as ->. repeat split.
  - cbn in H. destruct (IH i H) as (H0 & H1 & H2).
    replace (3 * S i)%nat with (S (S (S (3 * i)))) by lia.
    cbn [flat_map app nth_error Nat.add]. auto.
Qed.

(** X19. The result of [get_srgb1] is computed sample by sample: the
    three channels at positions 3i, 3i+1, 3i+2 of the result are those
    of sample i alone, converted by the branch the selector names, and
    no other sample influences them. *)
Theorem get_srgb1_pointwise {cio : Colorio} (z : ndarray complex) (alpha : R)
    (colorspace : string) (sp : space) (i : nat) (c : complex) :
  0 <= alpha -> selects colorspace sp ->
  nth_error (data z) i = Some c ->
  exists out,
    get_srgb1 z alpha colorspace = Ok out /\
    let px :=
      vmap (post sp)
           (decode sp (point_of sp (abs_scaling alpha (np_abs c))
                                (arctan2 (imag c) (real c)))) in
    nth_error (data out) (3 * i) = Some (fst (fst px)) /\
    nth_error (data out) (3 * i + 1) = Some (snd (fst px)) /\
    nth_error (data out) (3 * i + 2) = Some (snd px).
Proof.
  intros Ha Hs Hc. exists (moveaxis_0_last (amap (pixel sp alpha) z)).
  split; [apply (get_srgb1_pixels z alpha colorspace sp Ha Hs)|].
  cbv zeta. unfold moveaxis_0_last, amap. cbn [data].
  apply (nth_error_flat_map3 (fun v : vec3 => fst (fst v))
           (fun v => snd (fst v)) (fun v => snd v)).
  apply (map_nth_error (pixel sp alpha) i (data z) Hc).
Qed.

Lemma get_srgb1_pointwise_witness :
  exists out,
    get_srgb1 (cio := gray_colorio)
              (mkArr [2%nat] [mkC (Fin 1) (Fin 0); mkC NaN (Fin 2)]) 1 "cielab"
    = Ok out /\
    nth_error (data out) (3 * 1) = Some (Fin 0.5).
Proof.
  destruct (get_srgb1_pointwise (cio := gray_colorio)
              (mkArr [2%nat] [mkC (Fin 1) (Fin 0); mkC NaN (Fin 2)]) 1 "cielab"
              CIELAB 1 (mkC NaN (Fin 2))) as (out & H & H0 & _);
    [lra|reflexivity|reflexivity|].
  exists out. split; [exact H|]. rewrite H0.
  cbn. change (clip_lo (clip_hi (Fin 0.5))) with (clip01 (Fin 0.5)).
  now rewrite clip01_fin by lra.
Defined.

(** ** [tripcolor] *)

(** X20. [tripcolor] always colours in the CAM16 branch: it fails with
    the alpha assertion exactly when alpha < 0, with IndexError exactly
    when alpha >= 0 and the array has no axis, and never because of
    the colour space; otherwise it makes one call whose colour map has
    N = shape[0] entries built from the [get_srgb1] result and whose
    node values are 0, ..., N-1. *)
Theorem tripcolor_outcomes {cio : Colorio} {T : Type} (triang : T)
    (z : ndarray complex) (alpha : R) :
  (tripcolor triang z alpha = inr (from_get_srgb1 InvalidParameter)
   <-> alpha < 0) /\
  (tripcolor triang z alpha = inr IndexError <-> 0 <= alpha /\ shape z = []) /\
  (forall n sh, 0 <= alpha -> shape z = n :: sh ->
     tripcolor triang z alpha
     = inl (mk_tripcolor_call triang (seq 0 n)
              (moveaxis_0_last (amap (pixel CAM16 alpha) z)) n) /\
     shape (moveaxis_0_last (amap (pixel CAM16 alpha) z)) = (n :: sh) ++ [3%nat] /\
     List.length (data (moveaxis_0_last (amap (pixel CAM16 alpha) z)))
     = (3 * List.length (data z))%nat).
Proof.
  assert (Hneg : alpha < 0 ->
                 tripcolor triang z alpha = inr (from_get_srgb1 InvalidParameter)).
  { intros H. unfold tripcolor. now rewrite get_srgb1_alpha_neg. }
  assert (Hpos : 0 <= alpha ->
                 tripcolor triang z alpha
                 = match shape z with
                   | [] => inr IndexError
                   | n :: _ =>
                       inl (mk_tripcolor_call triang (seq 0 n)
                              (moveaxis_0_last (amap (pixel CAM16 alpha) z)) n)
                   end).
  { intros H. unfold tripcolor.
    now rewrite (get_srgb1_pixels z alpha "CAM16" CAM16 H eq_refl). }
  split; [|split].
  - split; [|exact Hneg]. intros H.
    destruct (Rlt_dec alpha 0) as [Hlt|Hge]; [assumption|].
    rewrite Hpos in H by lra. destruct (shape z); discriminate.
  - split.
    + intros H. destruct (Rlt_dec alpha 0) as [Hlt|Hge].
      * rewrite Hneg in H by assumption. discriminate.
      * rewrite Hpos in H by lra. split; [lra|].
        destruct (shape z); [reflexivity|discriminate].
    + intros [Ha Hsh]. now rewrite Hpos, Hsh.
  - intros n sh Ha Hsh. split; [now rewrite Hpos, Hsh|].
    split; [cbn [shape moveaxis_0_last amap]; now rewrite Hsh|].
    rewrite length_moveaxis. unfold amap. cbn [data]. now rewrite length_map.
Qed.

Lemma tripcolor_outcomes_witness :
  0 <= 1 /\
  tripcolor (cio := gray_colorio) tt
            (mkArr [2%nat] [mkC (Fin 1) (Fin 0); mkC (Fin 0) (Fin 1)]) 1
  = inl (mk_tripcolor_call tt [0%nat; 1%nat]
           (moveaxis_0_last
              (amap (pixel (cio := gray_colorio) CAM16 1)
                    (mkArr [2%nat] [mkC (Fin 1) (Fin 0); mkC (Fin 0) (Fin 1)])))
           2).
Proof.
  split; [lra|].
  destruct (tripcolor_outcomes (cio := gray_colorio) tt
              (mkArr [2%nat] [mkC (Fin 1) (Fin 0); mkC (Fin 0) (Fin 1)]) 1)
    as (_ & _ & H).
  destruct (H 2%nat [] ltac:(lra) eq_refl) as [E _]. exact E.
Defined.

(** ** The image and the contours of [plot] *)

(** X21. The image [plot] shows has one pixel per grid cell: its shape
    is (ny, nx, 3), rows counting the imaginary direction, for an int
    [n] as for a pair (nx, ny). *)
Theorem plot_image_shape {cio : Colorio} {plt : Pyplot}
    (f : complex -> complex) (xmin xmax ymin ymax : R) (n : n_arg) (alpha : R)
    (colorspace : string) (contour_abs contour_arg : bool)
    (calls : list plt_call) (nx ny : Z) :
  plot f (xmin, xmax) (ymin, ymax) n alpha colorspace contour_abs contour_arg
  = Ok calls ->
  counts n = Some (nx, ny) ->
  exists img extent rest,
    calls = imshow img extent :: rest /\
    shape img = [Z.to_nat ny; Z.to_nat nx; 3%nat] /\
    List.length (data img) = (3 * (Z.to_nat ny * Z.to_nat nx))%nat.
Proof.
  intros H Hn.
  destruct (plot_ok_inv f xmin xmax ymin ymax n alpha colorspace
              contour_abs contour_arg calls H)
    as (Hx & Hy & (nx' & ny' & Hn' & Hnx & Hny) & Ha & sp & Hs).
  rewrite Hn in Hn'. injection Hn' as <- <-.
  rewrite (plot_after_checks f xmin xmax ymin ymax n alpha colorspace
             contour_abs contour_arg nx ny Hx Hy Hn) in H.
  rewrite _get_z_grid_cells in H by assumption. cbn [bind] in H.
  rewrite (get_srgb1_pixels _ alpha colorspace sp Ha Hs) in H.
  cbn [bind] in H. injection H as <-.
  eexists _, _, _. split; [reflexivity|]. split; [reflexivity|].
  rewrite length_moveaxis. unfold amap. cbn [data]. rewrite !length_map.
  rewrite (flat_map_constant_length (c := Z.to_nat nx)).
  - now rewrite length_seq.
  - intros j _. now rewrite length_map, length_seq.
Qed.

Lemma plot_image_shape_witness :
  exists calls img extent rest,
    plot (cio := gray_colorio) (plt := fixed_pyplot []) (fun c => c)
         (-2, 2) (-1, 1) (n_tuple [4; 2]%Z) 1 "cam16" false false = Ok calls /\
    calls = imshow img extent :: rest /\
    shape img = [2%nat; 4%nat; 3%nat].
Proof.
  destruct (plot_ok_intro (cio := gray_colorio) (plt := fixed_pyplot [])
              (fun c => c) (-2) 2 (-1) 1 (n_tuple [4; 2]%Z) 1 "cam16"
              false false) as [calls H];
    [lra|lra|exists 4%Z, 2%Z; repeat split; lia|lra|exists CAM16; reflexivity|].
  destruct (plot_image_shape (cio := gray_colorio) (plt := fixed_pyplot [])
              (fun c => c) (-2) 2 (-1) 1 (n_tuple [4; 2]%Z) 1 "cam16" false false
              calls 4 2 H eq_refl) as (img & extent & rest & E & Hsh & _).
  exists calls, img, extent, rest. repeat split; assumption.
Defined.

(** X22. Magnitude contours are never masked: the segments of the
    contour drawn at the levels 0.1 and 100.0 are those the isoline
    extraction returned, untouched; only the phase contour goes
    through the masking loop. *)
Theorem magnitude_contours_unmasked {cio : Colorio} {plt : Pyplot}
    (f : complex -> complex) (xminmax yminmax : R * R) (n : n_arg) (alpha : R)
    (colorspace : string) (contour_abs contour_arg : bool)
    (calls : list plt_call) (X Y field : ndarray float64) (colors : string)
    (segs : list (list segment)) :
  plot f xminmax yminmax n alpha colorspace contour_abs contour_arg = Ok calls ->
  In (contour X Y field [Fin 0.1; Fin 100.0] colors segs) calls ->
  contour_abs = true /\
  segs = contour_allsegs X Y field [Fin 0.1; Fin 100.0] /\
  exists Z, field = amap np_abs (amap f Z).
Proof.
  intros H Hin. apply plot_calls in H as (Z & img & _ & ->). cbv zeta in Hin.
  apply in_app_or in Hin as [Hin|Hin].
  - destruct Hin as [Hin|[]]. discriminate.
  - apply in_app_or in Hin as [Hin|Hin].
    + destruct contour_abs; [|contradiction].
      destruct Hin as [Hin|[]]. injection Hin as <- <- <- _ <-.
      split; [reflexivity|]. split; [reflexivity|]. now exists Z.
    + destruct contour_arg; [|contradiction].
      destruct Hin as [Hin|[]]. discriminate.
Qed.

Lemma magnitude_contours_unmasked_witness :
  let raw := [[[(Fin (-1), Fin 0)]]; [[(Fin 1, Fin 0)]]] in
  exists calls X Y field,
    plot (cio := gray_colorio) (plt := fixed_pyplot raw) (fun c => c)
         (-2, 2) (-2, 2) (n_int 2) 1 "cam16" true true = Ok calls /\
    In (contour X Y field [Fin 0.1; Fin 100.0] "#a0a0a050" raw) calls.
Proof.
  intros raw.
  destruct (plot_ok_intro (cio := gray_colorio) (plt := fixed_pyplot raw)
              (fun c => c) (-2) 2 (-2) 2 (n_int 2) 1 "cam16" true true)
    as [calls H];
    [lra|lra|exists 2%Z, 2%Z; repeat split; lia|lra|exists CAM16; reflexivity|].
  pose proof H as Hc. apply plot_calls in Hc as (Z & img & _ & Hc).
  cbv zeta in Hc.
  assert (Hin : In (contour (amap real Z) (amap imag Z) (amap np_abs (amap (fun c => c) Z))
                            [Fin 0.1; Fin 100.0] "#a0a0a050" raw) calls).
  { rewrite Hc. apply in_or_app. right. apply in_or_app. left. left. reflexivity. }
  destruct (magnitude_contours_unmasked (cio := gray_colorio)
              (plt := fixed_pyplot raw) (fun c => c) (-2, 2) (-2, 2) (n_int 2)
              1 "cam16" true true calls _ _ _ _ _ H Hin) as (_ & _ & _).
  eexists calls, _, _, _. split; [exact H|exact Hin].
Defined.
